(** * trackFeesLocked: account decoding and unclaimed-fee computation

    A shallow embedding of the computational core of [trackFeesLocked.mjs]:
    the little-endian wide-integer decoder [u256BytesToBigInt], the
    discriminator-based account resolver [decodeIdlAccountUnknown], the
    pool/position role swap of [processPair] and the fee computation
    [computeUnclaimedTokenB].

    JavaScript [BigInt] values are modelled by [Z], byte arrays by
    [list byte], decoded accounts (plain objects produced by the Borsh
    coder) by finite maps from field names to values, and thrown
    exceptions by an explicit result type. *)

From Stdlib Require Import ZArith Lia.
From Stdlib.Strings Require Byte.
From stdpp Require Import gmap strings list.

Local Open Scope Z_scope.

(** ** Bytes and BigInt *)

Abbreviation byte := Init.Byte.byte.

#[global] Instance byte_eq_dec : EqDecision byte := Byte.byte_eq_dec.

(** [BigInt(arr[i])] for an element of a byte array: a number in 0..255. *)
Definition BigInt_of_byte (b : byte) : Z := Z.of_N (Byte.to_N b).

(** The body of the loop of [u256BytesToBigInt], counted by [n = i + 1]:
    [for (let i = arr.length - 1; i >= 0; i--) x = (x << 8n) + BigInt(arr[i])].
    The index is always in range, so the default of [nth] is never read. *)
Fixpoint u256_loop (arr : list byte) (n : nat) (x : Z) : Z :=
  match n with
  | O => x
  | S i => u256_loop arr i (Z.shiftl x 8 + BigInt_of_byte (nth i arr Byte.x00))
  end.

(** [function u256BytesToBigInt(bytes)] on a byte array. *)
Definition u256BytesToBigInt (bytes : list byte) : Z :=
  let arr := bytes in
  u256_loop arr (length arr) 0.

(** The little-endian value written as the sum of [b[i] * 256^i]. *)
Definition le_sum (b : list byte) : Z :=
  foldr Z.add 0
    ((λ i : nat, BigInt_of_byte (nth i b Byte.x00) * 256 ^ Z.of_nat i)
       <$> seq 0 (length b)).

(** The byte whose value is [z mod 256]. *)
Definition byte_of_Z (z : Z) : byte :=
  default Byte.x00 (Byte.of_N (Z.to_N (z mod 256))).

(** The [n]-byte little-endian encoding of [v], least significant byte
    first. The program has no encoder; this one states the round trip. *)
Fixpoint le_bytes (n : nat) (v : Z) : list byte :=
  match n with
  | O => []
  | S k => byte_of_Z v :: le_bytes k (v / 256)
  end.

(** A structurally recursive reading of the same value, used in proofs. *)
Fixpoint le_fold (b : list byte) : Z :=
  match b with
  | [] => 0
  | x :: r => BigInt_of_byte x + 256 * le_fold r
  end.

(** ** Decoded accounts and exceptions *)

(** A field of a decoded account, as the Borsh coder produces it for the
    fields this program reads: a [BN] for [u64]/[u128] fields, an array of
    numbers in 0..255 for [[u8; 32]] fields. *)
Inductive Value :=
  | VBN (n : Z)
  | VArr (bytes : list byte).

(** A decoded account ([coder.decode(...)]): an object from field names to
    values. *)
Abbreviation Account := (gmap string Value).

(** A public key, identified by its base-58 text ([toBase58()]). *)
Abbreviation PublicKey := string.

(** The messages of the [new Error(...)] values the program throws; the
    last one stands for the errors of the Borsh coder. *)
Inductive Message :=
  | AccountNotFound (pubkey : PublicKey)
  | NotOwnedByProgram (pubkey program : PublicKey)
  | NoDiscriminatorMatch (pubkey : PublicKey)
  | NeitherLooksLikePool (pairName : string)
  | MissingCheckpoint (pairName : string)
  | CoderFailure (accountName : string).

Inductive Exn :=
  | TypeError
  | SyntaxError
  | Error (msg : Message).

(** The outcome of a call: a returned value or a thrown exception. *)
Inductive result (A : Type) :=
  | Return (a : A)
  | Throw (e : Exn).
Arguments Return {A} a.
Arguments Throw {A} e.

#[global] Instance result_ret : MRet result := λ A a, Return a.
#[global] Instance result_bind : MBind result := λ A B f m,
  match m with
  | Return a => f a
  | Throw e => Throw e
  end.

(** [BigInt(o.f.toString())] where [v] is the value of [o.f]:
    - a missing field is [undefined], and [undefined.toString()] throws;
    - a [BN] prints in decimal and parses back to the same integer;
    - an array prints its elements joined by commas: the empty text parses
      to [0n], one element to its value, and a text with a comma does not
      parse. *)
Definition BigInt_of_toString (v : option Value) : result Z :=
  match v with
  | None => Throw TypeError
  | Some (VBN n) => Return n
  | Some (VArr []) => Return 0
  | Some (VArr [b]) => Return (BigInt_of_byte b)
  | Some (VArr (_ :: _ :: _)) => Throw SyntaxError
  end.

(** [u256BytesToBigInt(o.f)] where [v] is the value of [o.f]:
    [Array.from(undefined)] throws; a [BN] is array-like with
    [length >= 1] and no indexed elements, so the first [BigInt(arr[i])] is
    [BigInt(undefined)], which throws. *)
Definition u256BytesToBigInt_of (v : option Value) : result Z :=
  match v with
  | None => Throw TypeError
  | Some (VBN _) => Throw TypeError
  | Some (VArr bytes) => Return (u256BytesToBigInt bytes)
  end.

(** [key in o] *)
Definition has_field (key : string) (o : Account) : bool :=
  match o !! key with
  | Some _ => true
  | None => false
  end.

(** ** The fee computation *)

(** [const LIQUIDITY_SCALE = 1n << 128n] *)
Definition LIQUIDITY_SCALE : Z := Z.shiftl 1 128.

(** [let delta = feeBPerLiquidity - feeBCheckpoint; if (delta < 0n) delta = 0n] *)
Definition delta (feeBPerLiquidity feeBCheckpoint : Z) : Z :=
  let delta := feeBPerLiquidity - feeBCheckpoint in
  if delta <? 0 then 0 else delta.

(** [(liquidity * delta) / LIQUIDITY_SCALE]; BigInt division truncates. *)
Definition newlyAccrued (liquidity delta : Z) : Z :=
  (liquidity * delta) ÷ LIQUIDITY_SCALE.

(** [function computeUnclaimedTokenB(poolState, posState)] *)
Definition computeUnclaimedTokenB (poolState posState : Account) : result Z :=
  unlocked ← BigInt_of_toString (posState !! "unlocked_liquidity");
  vested ← BigInt_of_toString (posState !! "vested_liquidity");
  permanent ← BigInt_of_toString (posState !! "permanent_locked_liquidity");
  let liquidity := unlocked + vested + permanent in
  if liquidity =? 0 then Return 0 else
  feeBPerLiquidity ← u256BytesToBigInt_of (poolState !! "fee_b_per_liquidity");
  feeBCheckpoint ←
    u256BytesToBigInt_of (posState !! "fee_b_per_token_checkpoint");
  feeBPending ← BigInt_of_toString (posState !! "fee_b_pending");
  let delta := delta feeBPerLiquidity feeBCheckpoint in
  let newlyAccrued := newlyAccrued liquidity delta in
  let totalPending := newlyAccrued + feeBPending in
  Return totalPending.

(** The pool account carries the accumulator bytes [acc]. *)
Definition pool_fields (poolState : Account) (acc : list byte) : Prop :=
  poolState !! "fee_b_per_liquidity" = Some (VArr acc).

(** The three liquidity components of a position account. *)
Definition liquidity_fields (posState : Account)
    (unlocked vested permanent : Z) : Prop :=
  posState !! "unlocked_liquidity" = Some (VBN unlocked)
  ∧ posState !! "vested_liquidity" = Some (VBN vested)
  ∧ posState !! "permanent_locked_liquidity" = Some (VBN permanent).

(** The checkpoint bytes and the pending amount of a position account. *)
Definition fee_fields (posState : Account)
    (checkpoint : list byte) (pending : Z) : Prop :=
  posState !! "fee_b_per_token_checkpoint" = Some (VArr checkpoint)
  ∧ posState !! "fee_b_pending" = Some (VBN pending).

(** The value [computeUnclaimedTokenB] returns on accounts whose six fields
    have the shapes the Borsh coder gives them. *)
Definition unclaimed (unlocked vested permanent : Z)
    (acc checkpoint : list byte) (pending : Z) : Z :=
  let liquidity := unlocked + vested + permanent in
  if liquidity =? 0 then 0
  else newlyAccrued liquidity
         (delta (u256BytesToBigInt acc) (u256BytesToBigInt checkpoint))
       + pending.

(** The fields [computeUnclaimedTokenB] reads from each account. *)
Definition pool_keys : list string := ["fee_b_per_liquidity"].
Definition position_keys : list string :=
  ["unlocked_liquidity"; "vested_liquidity"; "permanent_locked_liquidity";
   "fee_b_per_token_checkpoint"; "fee_b_pending"].

(** Two accounts hold the same thing (a value or nothing) under each key. *)
Definition agree_on (keys : list string) (o1 o2 : Account) : Prop :=
  Forall (λ key, o1 !! key = o2 !! key) keys.

(** ** Pool and position roles *)

(** The role assignment of [processPair], from [let poolState = ...] to the
    checkpoint test: the first account is taken as the pool unless it lacks
    [fee_b_per_liquidity], in which case the two are swapped; the account
    left as the position must have [fee_b_per_token_checkpoint]. *)
Definition processPair_roles (pairName : string)
    (poolDecoded posDecoded : Account) : result (Account * Account) :=
  let poolState := poolDecoded in
  let posState := posDecoded in
  '(poolState, posState) ←
    (if negb (has_field "fee_b_per_liquidity" poolState) then
       if negb (has_field "fee_b_per_liquidity" posState) then
         Throw (Error (NeitherLooksLikePool pairName))
       else Return (posState, poolState)
     else Return (poolState, posState));
  if negb (has_field "fee_b_per_token_checkpoint" posState) then
    Throw (Error (MissingCheckpoint pairName))
  else Return (poolState, posState).

(** ** Resolving and decoding an account *)

(** [Buffer.compare(a, b)]: -1, 0 or 1 by lexicographic byte order. *)
Fixpoint Buffer_compare (a b : list byte) : Z :=
  match a, b with
  | [], [] => 0
  | [], _ :: _ => -1
  | _ :: _, [] => 1
  | x :: a', y :: b' =>
      if BigInt_of_byte x <? BigInt_of_byte y then -1
      else if BigInt_of_byte y <? BigInt_of_byte x then 1
      else Buffer_compare a' b'
  end.

(** What [connection.getAccountInfo] returns for an existing account. *)
Record AccountInfo := {
  owner : PublicKey;
  data : list byte;
}.

(** One entry of [PAIRS]. *)
Record Pair := {
  name : string;
  pool : PublicKey;
  position : PublicKey;
}.

(** [const PROGRAM_ID = new PublicKey("cpamdp...")] *)
Definition PROGRAM_ID : PublicKey :=
  "cpamdpZCGKUy5JxQXB4dcpGPiikHawvSWAd6mEn1sGG".

(** The scan of [decodeIdlAccountUnknown] over [idl.accounts]: the first
    account whose precomputed discriminator compares equal to [disc]. *)
Fixpoint matchDiscriminator (idlAccountDiscriminators : gmap string (list byte))
    (accounts : list string) (disc : list byte) : option string :=
  match accounts with
  | [] => None
  | acc :: rest =>
      match idlAccountDiscriminators !! acc with
      | Some expectedDisc =>
          if Buffer_compare expectedDisc disc =? 0 then Some acc
          else matchDiscriminator idlAccountDiscriminators rest disc
      | None => matchDiscriminator idlAccountDiscriminators rest disc
      end
  end.

(** [!matchedName]: [null] and the empty text are falsy. *)
Definition no_name (matchedName : option string) : bool :=
  match matchedName with
  | None => true
  | Some s => String.eqb s EmptyString
  end.

Section Resolver.

(** [crypto.createHash("sha256").update(s).digest()], a 32-byte buffer. *)
Variable sha256 : string → list byte.

(** The names of [idl.accounts || []], in the order of the IDL file. *)
Variable idl_accounts : list string.

(** [coder.decode(name, data)] of the Borsh coder built from the IDL. *)
Variable coder_decode : string → list byte → result Account.

(** [connection.getAccountInfo(pubkey)]: [null] or the account. *)
Variable getAccountInfo : PublicKey → option AccountInfo.

(** [function accountDiscriminator(name)] *)
Definition accountDiscriminator (name : string) : list byte :=
  let hash := sha256 ("account:" +:+ name) in
  take 8 hash.

(** [idlAccountDiscriminators], filled by the loop over [idl.accounts]. The
    account names are taken to be ordinary keys, not names of properties
    that every JavaScript object inherits. *)
Definition idlAccountDiscriminators : gmap string (list byte) :=
  foldl (λ m acc, <[acc := accountDiscriminator acc]> m) ∅ idl_accounts.

(** [async function decodeIdlAccountUnknown(pubkey)] *)
Definition decodeIdlAccountUnknown (pubkey : PublicKey)
    : result (string * Account) :=
  match getAccountInfo pubkey with
  | None => Throw (Error (AccountNotFound pubkey))
  | Some info =>
      if negb (String.eqb (owner info) PROGRAM_ID) then
        Throw (Error (NotOwnedByProgram pubkey PROGRAM_ID))
      else
        let disc := take 8 (data info) in
        let matchedName :=
          matchDiscriminator idlAccountDiscriminators idl_accounts disc in
        if no_name matchedName then
          Throw (Error (NoDiscriminatorMatch pubkey))
        else
          match matchedName with
          | Some matchedName =>
              parsed ← coder_decode matchedName (data info);
              Return (matchedName, parsed)
          | None => Throw (Error (NoDiscriminatorMatch pubkey))
          end
  end.

(** [async function processPair(pair)], up to [totalPendingRaw]; the
    floating-point [totalPendingTokens] is left out. The two addresses of
    [PAIRS] are valid base-58 keys, so [new PublicKey(...)] does not throw;
    both accounts are read from the same chain state. *)
Definition processPair (pair : Pair) : result Z :=
  let poolPk := pool pair in
  let posPk := position pair in
  poolDecoded ← decodeIdlAccountUnknown poolPk;
  posDecoded ← decodeIdlAccountUnknown posPk;
  '(poolState, posState) ←
    processPair_roles (name pair) poolDecoded.2 posDecoded.2;
  computeUnclaimedTokenB poolState posState.

End Resolver.

(** ** The snapshot run and the CSV file *)

(** [const PAIRS = [...]]: the order defines the CSV column order. *)
Definition PAIRS : list Pair := [
  {| name := "USDC/SCARCE";
     pool := "5NTgc3UVv9k4VE7dRFA9p9nwbsBwK98UqDBpWgxUpQGM";
     position := "9gv2J53nGeG1WgsuuUEszu22Qsww8DiuaxY6n9s69NvS" |};
  {| name := "SOL/SCARCE";
     pool := "DP6TQnxVJm8mnr8hgP1kEsGuobtPixnhXbmhCnwnhzpA";
     position := "DQbTWNmnRCTH2kYc7PTHUMFKVjKbqo6a9jDyjm5Gvyw5" |};
  {| name := "ETH/SCARCE";
     pool := "8Ki2eoYCg4T4u81so4FeBdD2dQV77Vw4itseVv1UGJJR";
     position := "4hFJ7VZH7iBkrk1JzvgbvjoVpHX774JjjM15jvJLrb2C" |};
  {| name := "BTC/SCARCE";
     pool := "8qxAav4uGykfwiVDF9rdm4hmH2uYx9d8pXrmYTqRBgt2";
     position := "GYRrMpf2LZjhqz5RHHmabNuMXSrhpDkqnvuurx8ekRZr" |}
].

(** The line feed that ends the header and every row. *)
Definition newline : string := String (Ascii.ascii_of_nat 10) EmptyString.

(** [xs.join(",")] on an array of texts. *)
Fixpoint join_comma (xs : list string) : string :=
  match xs with
  | [] => EmptyString
  | [x] => x
  | x :: rest => x +:+ "," +:+ join_comma rest
  end.

(** [ensureCsvHeader()] as a function of the CSV file: [None] is a missing
    file, [Some content] an existing one. The header is written when the
    file is missing or has size 0. *)
Definition ensureCsvHeader (file : option string) : option string :=
  let header := "time," +:+ join_comma (name <$> PAIRS) +:+ ",Total"
                +:+ newline in
  match file with
  | None => Some header
  | Some content =>
      if (String.length content =? 0)%nat then Some header else Some content
  end.

(** [fs.appendFileSync(CSV_PATH, line)]: the file is created when missing. *)
Definition appendFileSync (file : option string) (line : string)
    : option string :=
  Some (default EmptyString file +:+ line).

Section Snapshot.

Variable sha256 : string → list byte.
Variable idl_accounts : list string.
Variable coder_decode : string → list byte → result Account.
Variable getAccountInfo : PublicKey → option AccountInfo.

(** JavaScript numbers (floating point) are kept abstract: the literal [0],
    the conversion [Number(raw) / 10 ** Number(TOKEN_B_DECIMALS)] of a raw
    amount, and the text a number is printed as. *)
Variable Number : Type.
Variable Number_zero : Number.
Variable tokens_of_raw : Z → Number.
Variable Number_toString : Number → string.

(** [PAIRS.map((p) => perPairTokens[p.name] !== undefined ?
    perPairTokens[p.name] : 0)] *)
Definition csv_cols (perPairTokens : gmap string Number) : list Number :=
  (λ p, match perPairTokens !! name p with
        | Some v => v
        | None => Number_zero
        end) <$> PAIRS.

(** [appendCsvCombinedRow(timestampIso, perPairTokens, totalTokens)] as a
    function of the CSV file. *)
Definition appendCsvCombinedRow (timestampIso : string)
    (perPairTokens : gmap string Number) (totalTokens : Number)
    (file : option string) : option string :=
  let cols := csv_cols perPairTokens in
  let line := timestampIso +:+ "," +:+ join_comma (Number_toString <$> cols)
              +:+ "," +:+ Number_toString totalTokens +:+ newline in
  appendFileSync file line.

(** A cell of a spreadsheet row: a text or a number. *)
Inductive Cell :=
  | CellText (s : string)
  | CellNumber (n : Number).

(** The text of a cell, as [join] prints it. *)
Definition Cell_toString (c : Cell) : string :=
  match c with
  | CellText s => s
  | CellNumber n => Number_toString n
  end.

(** [const values = [[timestampIso, ...cols, totalTokens]]] of
    [appendSheetCombinedRow], with [cols] computed as for the CSV row. The
    call of the spreadsheet service itself is left out. *)
Definition sheet_values (timestampIso : string)
    (perPairTokens : gmap string Number) (totalTokens : Number)
    : list (list Cell) :=
  let cols := csv_cols perPairTokens in
  [CellText timestampIso :: (CellNumber <$> cols) ++ [CellNumber totalTokens]].

(** The variables of [main] that its loop updates. Pair names are taken to
    be ordinary keys, as those of [PAIRS] are. *)
Record RunState := {
  perPairTokens : gmap string Number;
  totalRaw : Z;
}.

(** One round of [for (const pair of PAIRS) { try {...} catch (e) {...} }]:
    a pair that is processed adds its raw amount to [totalRaw] and records
    its amount in tokens; a pair whose processing throws records [0]. *)
Definition main_step (st : RunState) (pair : Pair) : RunState :=
  match processPair sha256 idl_accounts coder_decode getAccountInfo pair with
  | Return totalPendingRaw =>
      {| perPairTokens :=
           <[name pair := tokens_of_raw totalPendingRaw]> (perPairTokens st);
         totalRaw := totalRaw st + totalPendingRaw |}
  | Throw _ =>
      {| perPairTokens := <[name pair := Number_zero]> (perPairTokens st);
         totalRaw := totalRaw st |}
  end.

(** The loop of [main] over a list of pairs, from a given state. *)
Definition main_loop (pairs : list Pair) (st : RunState) : RunState :=
  foldl main_step st pairs.

(** [async function main()] as a function of the CSV file, with
    [timestampIso] the time of the run: header, loop over [PAIRS], one
    combined row. Console output and the optional spreadsheet row are left
    out. *)
Definition main (timestampIso : string) (file : option string)
    : option string :=
  let file := ensureCsvHeader file in
  let st := main_loop PAIRS {| perPairTokens := ∅; totalRaw := 0 |} in
  let totalTokens := tokens_of_raw (totalRaw st) in
  appendCsvCombinedRow timestampIso (perPairTokens st) totalTokens file.

End Snapshot.

(** The raw amount a pair contributes to the total: its result, or nothing
    when processing it throws. *)
Definition raw_or_zero (r : result Z) : Z :=
  match r with
  | Return totalPendingRaw => totalPendingRaw
  | Throw _ => 0
  end.

(** ** Sample accounts *)

(** 32 little-endian bytes with [b] at index 16: the value [b * 2^128]. *)
Definition units_of_scale (b : byte) : list byte :=
  replicate 16 Byte.x00 ++ [b] ++ replicate 15 Byte.x00.

(** A pool whose token-B accumulator is [2 * 2^128]. *)
Definition sample_pool : Account :=
  list_to_map [
    ("fee_a_per_liquidity", VArr (units_of_scale Byte.x07));
    ("fee_b_per_liquidity", VArr (units_of_scale Byte.x02));
    ("permanent_lock_liquidity", VBN 0)
  ].

(** The same pool at an earlier time: accumulator [1 * 2^128]. *)
Definition sample_pool_earlier : Account :=
  <["fee_b_per_liquidity" := VArr (units_of_scale Byte.x01)]> sample_pool.

(** A position with liquidity 1,000,000, checkpoint [1 * 2^128] and 500
    pending. *)
Definition sample_position : Account :=
  list_to_map [
    ("fee_a_per_token_checkpoint", VArr (units_of_scale Byte.x03));
    ("fee_b_per_token_checkpoint", VArr (units_of_scale Byte.x01));
    ("fee_a_pending", VBN 9);
    ("fee_b_pending", VBN 500);
    ("unlocked_liquidity", VBN 600000);
    ("vested_liquidity", VBN 300000);
    ("permanent_locked_liquidity", VBN 100000)
  ].

(** A fully withdrawn position that still has 7 pending. *)
Definition withdrawn_position : Account :=
  list_to_map [
    ("fee_b_per_token_checkpoint", VArr (units_of_scale Byte.x02));
    ("fee_b_pending", VBN 7);
    ("unlocked_liquidity", VBN 0);
    ("vested_liquidity", VBN 0);
    ("permanent_locked_liquidity", VBN 0)
  ].

(** Two accounts that each carry both the pool field and the checkpoint
    field. *)
Definition hybrid_account (b : byte) : Account :=
  list_to_map [
    ("fee_b_per_liquidity", VArr (units_of_scale b));
    ("fee_b_per_token_checkpoint", VArr (units_of_scale b))
  ].

(** A stand-in for the digest in examples: the text read backwards, cut or
    zero-padded to 32 bytes. It is not SHA-256; only the length of the
    digest matters there. *)
Definition padded_digest (s : string) : list byte :=
  take 32 (reverse (String.list_byte_of_string s) ++ replicate 32 Byte.x00).

(** A chain state for examples: two accounts owned by the program whose
    data start with the discriminators of [Pool] and of [Position], one
    owned by the program with
    three bytes of data, one owned by the program with nine bytes that
    match nothing, and any other address owned by the system program. *)
Definition sample_chain (pubkey : PublicKey) : option AccountInfo :=
  if String.eqb pubkey "pool" then
    Some {| owner := PROGRAM_ID;
            data := accountDiscriminator padded_digest "Pool"
                    ++ [Byte.x00] |}
  else if String.eqb pubkey "position" then
    Some {| owner := PROGRAM_ID;
            data := accountDiscriminator padded_digest "Position"
                    ++ [Byte.x00] |}
  else if String.eqb pubkey "short" then
    Some {| owner := PROGRAM_ID; data := replicate 3 Byte.x01 |}
  else if String.eqb pubkey "unknown" then
    Some {| owner := PROGRAM_ID; data := replicate 9 Byte.xff |}
  else
    Some {| owner := "11111111111111111111111111111111";
            data := replicate 9 Byte.xff |}.

(** A coder for examples: it ignores the data and returns the sample pool
    or the sample position by account name. *)
Definition sample_coder (accountName : string) (data : list byte)
    : result Account :=
  if String.eqb accountName "Pool" then Return sample_pool
  else if String.eqb accountName "Position" then Return sample_position
  else Throw (Error (CoderFailure accountName)).

(** A pair for examples, over the sample chain state. *)
Definition sample_pair : Pair :=
  {| name := "SOL/SCARCE"; pool := "pool"; position := "position" |}.

(** ** Facts about the decoder *)

Lemma BigInt_of_byte_range b : 0 <= BigInt_of_byte b < 256.
Proof.
  unfold BigInt_of_byte.
  pose proof (Byte.to_N_bounded b) as Hb.
  lia.
Qed.

Lemma BigInt_of_byte_of_Z z : BigInt_of_byte (byte_of_Z z) = z mod 256.
Proof.
  unfold BigInt_of_byte, byte_of_Z.
  pose proof (Z.mod_pos_bound z 256 eq_refl) as Hm.
  destruct (Byte.of_N (Z.to_N (z mod 256))) as [y|] eqn:E.
  - apply Byte.to_of_N in E. simpl. rewrite E. lia.
  - apply Byte.of_N_None_iff in E. lia.
Qed.

Lemma le_fold_app p q :
  le_fold (p ++ q) = le_fold p + 256 ^ Z.of_nat (length p) * le_fold q.
Proof.
  induction p as [|x p IH]; simpl le_fold; simpl length.
  - change (256 ^ Z.of_nat 0) with 1. lia.
  - rewrite IH, Nat2Z.inj_succ, Z.pow_succ_r by lia. lia.
Qed.

Lemma u256_loop_prefix pre : ∀ suf x,
  u256_loop (pre ++ suf) (length pre) x
  = x * 256 ^ Z.of_nat (length pre) + le_fold pre.
Proof.
  induction pre as [|b pre IH] using rev_ind; intros suf x.
  - simpl. lia.
  - rewrite length_app, Nat.add_comm. simpl length. simpl u256_loop.
    rewrite <- app_assoc. simpl app.
    replace (nth (length pre) (pre ++ b :: suf) Byte.x00) with b.
    2:{ rewrite app_nth2 by lia. by rewrite Nat.sub_diag. }
    rewrite IH, le_fold_app. simpl le_fold.
    rewrite Z.shiftl_mul_pow2 by lia.
    rewrite Nat2Z.inj_succ, Z.pow_succ_r by lia.
    change (2 ^ 8) with 256. lia.
Qed.

Lemma u256BytesToBigInt_fold b : u256BytesToBigInt b = le_fold b.
Proof.
  unfold u256BytesToBigInt.
  pose proof (u256_loop_prefix b [] 0) as H.
  rewrite app_nil_r in H. rewrite H. lia.
Qed.

Lemma le_sum_cons x r : le_sum (x :: r) = BigInt_of_byte x + 256 * le_sum r.
Proof.
  unfold le_sum. simpl length. rewrite <- cons_seq, <- seq_shift.
  rewrite fmap_cons. simpl foldr. change (256 ^ Z.of_nat 0) with 1.
  rewrite Z.mul_1_r. f_equal.
  rewrite <- list_fmap_compose.
  generalize (seq 0 (length r)) as l.
  induction l as [|i l IH]; [done|].
  rewrite !fmap_cons. simpl foldr. rewrite IH. simpl compose.
  rewrite Nat2Z.inj_succ, Z.pow_succ_r by lia. simpl nth. lia.
Qed.

Lemma le_fold_sum b : le_fold b = le_sum b.
Proof.
  induction b as [|x r IH]; [done|].
  rewrite le_sum_cons. simpl. by rewrite IH.
Qed.

Lemma le_fold_range b : 0 <= le_fold b < 2 ^ (8 * Z.of_nat (length b)).
Proof.
  induction b as [|x r IH]; simpl le_fold; simpl length.
  - simpl. lia.
  - pose proof (BigInt_of_byte_range x) as Hx.
    rewrite Nat2Z.inj_succ.
    replace (8 * Z.succ (Z.of_nat (length r)))
      with (8 + 8 * Z.of_nat (length r)) by lia.
    rewrite Z.pow_add_r by lia. change (2 ^ 8) with 256. lia.
Qed.

Lemma length_le_bytes n : ∀ v, length (le_bytes n v) = n.
Proof. induction n as [|n IH]; intros v; simpl; [done|]. by rewrite IH. Qed.

Lemma le_fold_le_bytes n : ∀ v,
  0 <= v < 256 ^ Z.of_nat n → le_fold (le_bytes n v) = v.
Proof.
  induction n as [|n IH]; intros v Hv.
  - change (256 ^ Z.of_nat 0) with 1 in Hv. simpl. lia.
  - simpl le_bytes. simpl le_fold.
    rewrite Nat2Z.inj_succ, Z.pow_succ_r in Hv by lia.
    rewrite BigInt_of_byte_of_Z, IH.
    + pose proof (Z.div_mod v 256). lia.
    + split; [apply Z.div_pos; lia|].
      apply Z.div_lt_upper_bound; lia.
Qed.

(** ** Facts about the fee computation *)

Lemma computeUnclaimedTokenB_fields poolState posState u v p acc ck pend :
  pool_fields poolState acc →
  liquidity_fields posState u v p →
  fee_fields posState ck pend →
  computeUnclaimedTokenB poolState posState
  = Return (unclaimed u v p acc ck pend).
Proof.
  intros Hacc (Hu & Hv & Hp) (Hck & Hpend).
  unfold computeUnclaimedTokenB, unclaimed.
  rewrite Hu, Hv, Hp. simpl.
  destruct (u + v + p =? 0); [done|].
  rewrite Hacc, Hck, Hpend. done.
Qed.

Lemma LIQUIDITY_SCALE_pos : 0 < LIQUIDITY_SCALE.
Proof. reflexivity. Qed.

Lemma delta_nonneg a c : 0 <= delta a c.
Proof. unfold delta. destruct (Z.ltb_spec (a - c) 0); lia. Qed.

Lemma delta_clamped a c : a <= c → delta a c = 0.
Proof. unfold delta. destruct (Z.ltb_spec (a - c) 0); lia. Qed.

Lemma delta_mono a1 a2 c : a1 <= a2 → delta a1 c <= delta a2 c.
Proof.
  unfold delta.
  destruct (Z.ltb_spec (a1 - c) 0), (Z.ltb_spec (a2 - c) 0); lia.
Qed.

Lemma newlyAccrued_zero liquidity : newlyAccrued liquidity 0 = 0.
Proof. unfold newlyAccrued. rewrite Z.mul_0_r. reflexivity. Qed.

Lemma newlyAccrued_nonneg liquidity d :
  0 <= liquidity → 0 <= d → 0 <= newlyAccrued liquidity d.
Proof.
  intros Hl Hd. unfold newlyAccrued.
  apply Z.quot_pos; [nia | apply LIQUIDITY_SCALE_pos].
Qed.

Lemma newlyAccrued_mono liquidity d1 d2 :
  0 <= liquidity → d1 <= d2 →
  newlyAccrued liquidity d1 <= newlyAccrued liquidity d2.
Proof.
  intros Hl Hd. unfold newlyAccrued.
  apply Z.quot_le_mono; [apply LIQUIDITY_SCALE_pos | nia].
Qed.

(** Claim C2: when the three liquidity components of the position sum to
    zero, [computeUnclaimedTokenB] returns [0n], whatever the pool account
    is and whatever the checkpoint and pending fields of the position hold
    (they are not even read). *)
Theorem zero_liquidity_returns_zero poolState posState u v p :
  liquidity_fields posState u v p →
  u + v + p = 0 →
  computeUnclaimedTokenB poolState posState = Return 0.
Proof.
  intros (Hu & Hv & Hp) Hsum.
  unfold computeUnclaimedTokenB.
  rewrite Hu, Hv, Hp. simpl.
  rewrite Hsum. reflexivity.
Qed.

Lemma zero_liquidity_returns_zero_witness :
  computeUnclaimedTokenB sample_pool withdrawn_position = Return 0.
Proof.
  apply (zero_liquidity_returns_zero sample_pool withdrawn_position 0 0 0).
  - repeat split; reflexivity.
  - reflexivity.
Defined.

(** Claim C1, as stated, fails: a fully withdrawn position (liquidity 0)
    with 7 pending, whose checkpoint equals the pool accumulator, yields
    [0n] and not the pending 7. *)
Lemma clamped_pending_counterexample :
  pool_fields sample_pool (units_of_scale Byte.x02)
  ∧ liquidity_fields withdrawn_position 0 0 0
  ∧ fee_fields withdrawn_position (units_of_scale Byte.x02) 7
  ∧ u256BytesToBigInt (units_of_scale Byte.x02)
    <= u256BytesToBigInt (units_of_scale Byte.x02)
  ∧ computeUnclaimedTokenB sample_pool withdrawn_position = Return 0
  ∧ computeUnclaimedTokenB sample_pool withdrawn_position ≠ Return 7.
Proof.
  split; [reflexivity|].
  split; [repeat split; reflexivity|].
  split; [repeat split; reflexivity|].
  split; [apply Z.le_refl|].
  split; [reflexivity|].
  vm_compute. discriminate.
Qed.

(** Claim C1 (amended): when the pool accumulator is numerically less than
    or equal to the position checkpoint, the delta is clamped to zero and
    [computeUnclaimedTokenB] returns exactly the pending field, provided the
    total liquidity is not zero; with zero total liquidity it returns
    [0n]. *)
Theorem clamped_delta_returns_pending poolState posState u v p acc ck pend :
  pool_fields poolState acc →
  liquidity_fields posState u v p →
  fee_fields posState ck pend →
  u256BytesToBigInt acc <= u256BytesToBigInt ck →
  delta (u256BytesToBigInt acc) (u256BytesToBigInt ck) = 0
  ∧ computeUnclaimedTokenB poolState posState
    = Return (if u + v + p =? 0 then 0 else pend).
Proof.
  intros Hacc Hliq Hfee Hle.
  pose proof (delta_clamped _ _ Hle) as Hd.
  split; [exact Hd|].
  rewrite (computeUnclaimedTokenB_fields _ _ _ _ _ _ _ _ Hacc Hliq Hfee).
  unfold unclaimed. rewrite Hd, newlyAccrued_zero.
  destruct (u + v + p =? 0); reflexivity.
Qed.

Lemma clamped_delta_returns_pending_witness :
  computeUnclaimedTokenB sample_pool_earlier sample_position = Return 500.
Proof.
  apply (clamped_delta_returns_pending sample_pool_earlier sample_position
           600000 300000 100000
           (units_of_scale Byte.x01) (units_of_scale Byte.x01) 500).
  - reflexivity.
  - repeat split; reflexivity.
  - repeat split; reflexivity.
  - vm_compute. discriminate.
Defined.

(** Claim C4: for a fixed position with non-negative liquidity components,
    [computeUnclaimedTokenB] is monotonically non-decreasing in the pool
    accumulator. *)
Theorem unclaimed_monotone_in_accumulator
    poolState1 poolState2 posState u v p acc1 acc2 ck pend :
  pool_fields poolState1 acc1 →
  pool_fields poolState2 acc2 →
  liquidity_fields posState u v p →
  fee_fields posState ck pend →
  0 <= u → 0 <= v → 0 <= p →
  u256BytesToBigInt acc1 <= u256BytesToBigInt acc2 →
  ∃ r1 r2,
    computeUnclaimedTokenB poolState1 posState = Return r1
    ∧ computeUnclaimedTokenB poolState2 posState = Return r2
    ∧ r1 <= r2.
Proof.
  intros Hacc1 Hacc2 Hliq Hfee Hu Hv Hp Hle.
  eexists _, _. split; [|split].
  - exact (computeUnclaimedTokenB_fields _ _ _ _ _ _ _ _ Hacc1 Hliq Hfee).
  - exact (computeUnclaimedTokenB_fields _ _ _ _ _ _ _ _ Hacc2 Hliq Hfee).
  - unfold unclaimed. destruct (u + v + p =? 0); [lia|].
    pose proof (newlyAccrued_mono (u + v + p) _ _ ltac:(lia)
                  (delta_mono _ _ (u256BytesToBigInt ck) Hle)).
    lia.
Qed.

Lemma unclaimed_monotone_in_accumulator_witness :
  ∃ r1 r2,
    computeUnclaimedTokenB sample_pool_earlier sample_position = Return r1
    ∧ computeUnclaimedTokenB sample_pool sample_position = Return r2
    ∧ r1 <= r2.
Proof.
  apply (unclaimed_monotone_in_accumulator
           sample_pool_earlier sample_pool sample_position
           600000 300000 100000
           (units_of_scale Byte.x01) (units_of_scale Byte.x02)
           (units_of_scale Byte.x01) 500).
  - reflexivity.
  - reflexivity.
  - repeat split; reflexivity.
  - repeat split; reflexivity.
  - lia.
  - lia.
  - lia.
  - vm_compute. discriminate.
Defined.

(** Claim C5: with the accumulator [2 * 2^128] held in 32 little-endian
    bytes, the checkpoint [1 * 2^128], total liquidity 1,000,000 and 500
    pending, the delta is [2^128], the newly accrued amount is 1,000,000 and
    [computeUnclaimedTokenB] returns 1,000,500. *)
Theorem end_to_end_scenario poolState posState u v p :
  pool_fields poolState (units_of_scale Byte.x02) →
  liquidity_fields posState u v p →
  fee_fields posState (units_of_scale Byte.x01) 500 →
  u + v + p = 1000000 →
  length (units_of_scale Byte.x02) = 32%nat
  ∧ u256BytesToBigInt (units_of_scale Byte.x02) = 2 * 2 ^ 128
  ∧ u256BytesToBigInt (units_of_scale Byte.x01) = 1 * 2 ^ 128
  ∧ delta (u256BytesToBigInt (units_of_scale Byte.x02))
          (u256BytesToBigInt (units_of_scale Byte.x01)) = 2 ^ 128
  ∧ newlyAccrued 1000000 (2 ^ 128) = 1000000
  ∧ computeUnclaimedTokenB poolState posState = Return 1000500.
Proof.
  intros Hacc Hliq Hfee Hsum.
  do 5 (split; [reflexivity|]).
  rewrite (computeUnclaimedTokenB_fields _ _ _ _ _ _ _ _ Hacc Hliq Hfee).
  unfold unclaimed. rewrite Hsum. reflexivity.
Qed.

Lemma end_to_end_scenario_witness :
  computeUnclaimedTokenB sample_pool sample_position = Return 1000500.
Proof.
  apply (end_to_end_scenario sample_pool sample_position
           600000 300000 100000).
  - reflexivity.
  - repeat split; reflexivity.
  - repeat split; reflexivity.
  - reflexivity.
Defined.

(** Claim C8: on a pool and a position whose liquidity components and
    pending field are non-negative, [computeUnclaimedTokenB] returns a
    non-negative integer. *)
Theorem unclaimed_nonneg poolState posState u v p acc ck pend :
  pool_fields poolState acc →
  liquidity_fields posState u v p →
  fee_fields posState ck pend →
  0 <= u → 0 <= v → 0 <= p → 0 <= pend →
  ∃ r, computeUnclaimedTokenB poolState posState = Return r ∧ 0 <= r.
Proof.
  intros Hacc Hliq Hfee Hu Hv Hp Hpend.
  eexists. split.
  - exact (computeUnclaimedTokenB_fields _ _ _ _ _ _ _ _ Hacc Hliq Hfee).
  - unfold unclaimed. destruct (u + v + p =? 0); [lia|].
    pose proof (newlyAccrued_nonneg (u + v + p) _ ltac:(lia)
                  (delta_nonneg (u256BytesToBigInt acc)
                     (u256BytesToBigInt ck))).
    lia.
Qed.

Lemma unclaimed_nonneg_witness :
  ∃ r, computeUnclaimedTokenB sample_pool sample_position = Return r ∧ 0 <= r.
Proof.
  apply (unclaimed_nonneg sample_pool sample_position
           600000 300000 100000
           (units_of_scale Byte.x02) (units_of_scale Byte.x01) 500).
  - reflexivity.
  - repeat split; reflexivity.
  - repeat split; reflexivity.
  - lia.
  - lia.
  - lia.
  - lia.
Defined.

(** Claim C9: the outcome of [computeUnclaimedTokenB] depends only on the
    six fields it reads: two inputs that agree on [fee_b_per_liquidity] of
    the pool and on the five position fields give the same outcome,
    whatever else the accounts carry. *)
Theorem unclaimed_depends_on_six_fields
    poolState1 posState1 poolState2 posState2 :
  agree_on pool_keys poolState1 poolState2 →
  agree_on position_keys posState1 posState2 →
  computeUnclaimedTokenB poolState1 posState1
  = computeUnclaimedTokenB poolState2 posState2.
Proof.
  unfold agree_on, pool_keys, position_keys.
  rewrite !Forall_cons.
  intros (Hacc & _) (Hu & Hv & Hp & Hck & Hpend & _).
  unfold computeUnclaimedTokenB.
  by rewrite Hacc, Hu, Hv, Hp, Hck, Hpend.
Qed.

Lemma unclaimed_depends_on_six_fields_witness :
  computeUnclaimedTokenB sample_pool sample_position
  = computeUnclaimedTokenB
      (delete "fee_a_per_liquidity" sample_pool)
      (<["fee_a_pending" := VBN 0]> sample_position).
Proof.
  apply unclaimed_depends_on_six_fields.
  - repeat constructor.
  - repeat constructor.
Defined.

(** ** Facts about the role assignment *)

(** Claim C3, as stated, fails: when both accounts carry
    [fee_b_per_liquidity] (and the checkpoint field), the first argument is
    kept as the pool, so swapping the arguments swaps the assignment. *)
Lemma roles_order_counterexample :
  processPair_roles "SOL/SCARCE"
    (hybrid_account Byte.x01) (hybrid_account Byte.x02)
  = Return (hybrid_account Byte.x01, hybrid_account Byte.x02)
  ∧ processPair_roles "SOL/SCARCE"
      (hybrid_account Byte.x02) (hybrid_account Byte.x01)
    = Return (hybrid_account Byte.x02, hybrid_account Byte.x01)
  ∧ processPair_roles "SOL/SCARCE"
      (hybrid_account Byte.x01) (hybrid_account Byte.x02)
    ≠ processPair_roles "SOL/SCARCE"
        (hybrid_account Byte.x02) (hybrid_account Byte.x01).
Proof.
  split; [reflexivity|]. split; [reflexivity|].
  intros H.
  assert (hybrid_account Byte.x01 = hybrid_account Byte.x02) as E.
  { change (Return (hybrid_account Byte.x01, hybrid_account Byte.x02)
            = Return (hybrid_account Byte.x02, hybrid_account Byte.x01)
              :> result (Account * Account)) in H.
    congruence. }
  apply (f_equal (λ o : Account, o !! "fee_b_per_liquidity")) in E.
  vm_compute in E. discriminate.
Qed.

(** Claim C3 (amended): for two decoded accounts, except when both carry
    [fee_b_per_liquidity] and at least one of them also carries
    [fee_b_per_token_checkpoint], the role assignment has the same outcome
    in either argument order (the same pair or the same error); when it
    succeeds, the pool is the account that carries [fee_b_per_liquidity],
    the position is the other one, and it carries
    [fee_b_per_token_checkpoint]. *)
Theorem roles_order_independent pairName (A B : Account) :
  has_field "fee_b_per_liquidity" A && has_field "fee_b_per_liquidity" B
  && (has_field "fee_b_per_token_checkpoint" A
      || has_field "fee_b_per_token_checkpoint" B)
  = false →
  processPair_roles pairName A B = processPair_roles pairName B A
  ∧ ∀ poolState posState,
      processPair_roles pairName A B = Return (poolState, posState) →
      has_field "fee_b_per_liquidity" poolState = true
      ∧ has_field "fee_b_per_liquidity" posState = false
      ∧ has_field "fee_b_per_token_checkpoint" posState = true
      ∧ ((poolState = A ∧ posState = B) ∨ (poolState = B ∧ posState = A)).
Proof.
  intros Hnot. unfold processPair_roles.
  destruct (has_field "fee_b_per_liquidity" A) eqn:HA,
           (has_field "fee_b_per_liquidity" B) eqn:HB,
           (has_field "fee_b_per_token_checkpoint" A) eqn:HcA,
           (has_field "fee_b_per_token_checkpoint" B) eqn:HcB;
    try discriminate Hnot; simpl; rewrite ?HcA, ?HcB; simpl;
    (split; [reflexivity|]);
    intros poolState posState Hret; inversion Hret; subst; tauto.
Qed.

Lemma roles_order_independent_witness :
  processPair_roles "SOL/SCARCE" sample_position sample_pool
  = processPair_roles "SOL/SCARCE" sample_pool sample_position
  ∧ ∀ poolState posState,
      processPair_roles "SOL/SCARCE" sample_position sample_pool
      = Return (poolState, posState) →
      has_field "fee_b_per_liquidity" poolState = true
      ∧ has_field "fee_b_per_liquidity" posState = false
      ∧ has_field "fee_b_per_token_checkpoint" posState = true
      ∧ ((poolState = sample_position ∧ posState = sample_pool)
         ∨ (poolState = sample_pool ∧ posState = sample_position)).
Proof.
  apply (roles_order_independent "SOL/SCARCE" sample_position sample_pool).
  reflexivity.
Defined.

Example roles_swapped :
  processPair_roles "SOL/SCARCE" sample_position sample_pool
  = Return (sample_pool, sample_position).
Proof. reflexivity. Qed.

Example roles_two_pools :
  processPair_roles "SOL/SCARCE" sample_pool sample_pool_earlier
  = Throw (Error (MissingCheckpoint "SOL/SCARCE")).
Proof. reflexivity. Qed.

(** ** The wide-integer decoder *)

Example u256_three_bytes :
  u256BytesToBigInt [Byte.x01; Byte.x02; Byte.x03] = 1 + 2 * 256 + 3 * 65536.
Proof. reflexivity. Qed.

(** Claim C6: [u256BytesToBigInt] returns the little-endian value of its
    bytes, the sum of [b[i] * 256^i] with byte 0 least significant; hence
    decoding the [n]-byte little-endian encoding of a value below [256^n]
    gives the value back. *)
Theorem u256BytesToBigInt_little_endian :
  (∀ b : list byte, u256BytesToBigInt b = le_sum b)
  ∧ (∀ (n : nat) (v : Z),
       0 <= v < 256 ^ Z.of_nat n →
       length (le_bytes n v) = n ∧ u256BytesToBigInt (le_bytes n v) = v).
Proof.
  split.
  - intros b. by rewrite u256BytesToBigInt_fold, le_fold_sum.
  - intros n v Hv. split; [apply length_le_bytes|].
    rewrite u256BytesToBigInt_fold. by apply le_fold_le_bytes.
Qed.

Lemma u256BytesToBigInt_little_endian_witness :
  length (le_bytes 32 (2 * 2 ^ 128)) = 32%nat
  ∧ u256BytesToBigInt (le_bytes 32 (2 * 2 ^ 128)) = 2 * 2 ^ 128.
Proof.
  apply (proj2 u256BytesToBigInt_little_endian 32%nat (2 * 2 ^ 128)).
  vm_compute. split; [discriminate | reflexivity].
Defined.

(** Claim C10: on every byte array of length [n], [u256BytesToBigInt]
    returns (it does not throw) a value [v] with [0 <= v < 2^(8n)]; on the
    empty array it returns [0n]. *)
Theorem u256BytesToBigInt_range (b : list byte) :
  u256BytesToBigInt_of (Some (VArr b)) = Return (u256BytesToBigInt b)
  ∧ 0 <= u256BytesToBigInt b < 2 ^ (8 * Z.of_nat (length b))
  ∧ u256BytesToBigInt [] = 0.
Proof.
  split; [reflexivity|]. split; [|reflexivity].
  rewrite u256BytesToBigInt_fold. apply le_fold_range.
Qed.

(** ** Facts about the resolver *)

Lemma BigInt_of_byte_inj x y : BigInt_of_byte x = BigInt_of_byte y → x = y.
Proof.
  unfold BigInt_of_byte. intros H. apply N2Z.inj in H.
  pose proof (Byte.of_to_N x) as Hx. rewrite H, Byte.of_to_N in Hx.
  congruence.
Qed.

Lemma Buffer_compare_zero a : ∀ b, Buffer_compare a b = 0 ↔ a = b.
Proof.
  induction a as [|x a IH]; intros [|y b]; simpl; try (split; done).
  destruct (Z.ltb_spec (BigInt_of_byte x) (BigInt_of_byte y)) as [Hxy|Hxy].
  { split; [done|]. intros [= -> _]. lia. }
  destruct (Z.ltb_spec (BigInt_of_byte y) (BigInt_of_byte x)) as [Hyx|Hyx].
  { split; [done|]. intros [= -> _]. lia. }
  assert (x = y) as -> by (apply BigInt_of_byte_inj; lia).
  rewrite IH. split; [by intros ->|by intros [= ->]].
Qed.

Lemma matchDiscriminator_none discs accounts disc :
  (∀ acc expectedDisc,
     acc ∈ accounts → discs !! acc = Some expectedDisc → expectedDisc ≠ disc) →
  matchDiscriminator discs accounts disc = None.
Proof.
  induction accounts as [|acc rest IH]; intros Hno; [done|].
  simpl. destruct (discs !! acc) as [expectedDisc|] eqn:E.
  - destruct (Z.eqb_spec (Buffer_compare expectedDisc disc) 0) as [H0|_].
    + apply Buffer_compare_zero in H0.
      exfalso. eapply Hno; [apply list_elem_of_here | exact E | exact H0].
    + apply IH. intros a d Ha. apply Hno. by apply list_elem_of_further.
  - apply IH. intros a d Ha. apply Hno. by apply list_elem_of_further.
Qed.

Section ResolverFacts.

Variable sha256 : string → list byte.
Hypothesis sha256_length : ∀ s, length (sha256 s) = 32%nat.
Variable idl_accounts : list string.
Variable coder_decode : string → list byte → result Account.
Variable getAccountInfo : PublicKey → option AccountInfo.

Lemma accountDiscriminator_length acc :
  length (accountDiscriminator sha256 acc) = 8%nat.
Proof.
  unfold accountDiscriminator. rewrite length_take, sha256_length. lia.
Qed.

Lemma idlAccountDiscriminators_lookup acc expectedDisc :
  idlAccountDiscriminators sha256 idl_accounts !! acc = Some expectedDisc →
  expectedDisc = accountDiscriminator sha256 acc.
Proof.
  unfold idlAccountDiscriminators.
  assert (∀ (l : list string) (m : gmap string (list byte)),
            foldl (λ m a, <[a := accountDiscriminator sha256 a]> m) m l !! acc
            = Some expectedDisc →
            expectedDisc = accountDiscriminator sha256 acc
            ∨ m !! acc = Some expectedDisc) as Hgen.
  { induction l as [|a l IH]; intros m Hl; simpl in Hl; [by right|].
    destruct (IH _ Hl) as [?|Hm]; [by left|].
    destruct (decide (a = acc)) as [->|Hne].
    - rewrite lookup_insert_eq in Hm. left. congruence.
    - rewrite lookup_insert_ne in Hm by done. by right. }
  intros H. destruct (Hgen _ _ H) as [?|Hm]; [done|].
  by rewrite lookup_empty in Hm.
Qed.

Lemma decodeIdlAccountUnknown_no_match pubkey info :
  getAccountInfo pubkey = Some info →
  owner info = PROGRAM_ID →
  (∀ acc, acc ∈ idl_accounts →
          accountDiscriminator sha256 acc ≠ take 8 (data info)) →
  decodeIdlAccountUnknown sha256 idl_accounts coder_decode getAccountInfo pubkey
  = Throw (Error (NoDiscriminatorMatch pubkey)).
Proof.
  intros Hinfo Howner Hno. unfold decodeIdlAccountUnknown.
  rewrite Hinfo, Howner, String.eqb_refl. simpl.
  rewrite matchDiscriminator_none; [done|].
  intros acc d Hacc Hd ->.
  apply idlAccountDiscriminators_lookup in Hd. by eapply Hno.
Qed.

(** Claim C7: for an account that exists, [decodeIdlAccountUnknown] throws
    the not-owned error whenever the owner differs from [PROGRAM_ID],
    whatever the data; and for an account owned by [PROGRAM_ID] it throws
    the no-match error whenever no IDL account's discriminator equals the
    first 8 bytes of the data, which includes all data shorter than 8
    bytes. *)
Theorem decodeIdlAccountUnknown_rejects pubkey info :
  getAccountInfo pubkey = Some info →
  (owner info ≠ PROGRAM_ID →
   decodeIdlAccountUnknown sha256 idl_accounts coder_decode getAccountInfo
     pubkey
   = Throw (Error (NotOwnedByProgram pubkey PROGRAM_ID)))
  ∧ (owner info = PROGRAM_ID →
     (∀ acc, acc ∈ idl_accounts →
             accountDiscriminator sha256 acc ≠ take 8 (data info)) →
     decodeIdlAccountUnknown sha256 idl_accounts coder_decode getAccountInfo
       pubkey
     = Throw (Error (NoDiscriminatorMatch pubkey)))
  ∧ (owner info = PROGRAM_ID →
     (length (data info) < 8)%nat →
     decodeIdlAccountUnknown sha256 idl_accounts coder_decode getAccountInfo
       pubkey
     = Throw (Error (NoDiscriminatorMatch pubkey))).
Proof.
  intros Hinfo. split; [|split].
  - intros Howner. unfold decodeIdlAccountUnknown. rewrite Hinfo.
    apply String.eqb_neq in Howner. by rewrite Howner.
  - by apply (decodeIdlAccountUnknown_no_match pubkey info).
  - intros Howner Hshort.
    apply (decodeIdlAccountUnknown_no_match pubkey info); [done..|].
    intros acc _ Heq. apply (f_equal length) in Heq.
    rewrite accountDiscriminator_length, length_take in Heq. lia.
Qed.

End ResolverFacts.

Lemma padded_digest_length s : length (padded_digest s) = 32%nat.
Proof.
  unfold padded_digest.
  rewrite length_take, length_app, length_replicate. lia.
Qed.

Lemma decodeIdlAccountUnknown_rejects_witness :
  let decode :=
    decodeIdlAccountUnknown padded_digest ["Pool"; "Position"]
      (λ _ _, Return ∅) sample_chain in
  decode "elsewhere"
  = Throw (Error (NotOwnedByProgram "elsewhere" PROGRAM_ID))
  ∧ decode "unknown" = Throw (Error (NoDiscriminatorMatch "unknown"))
  ∧ decode "short" = Throw (Error (NoDiscriminatorMatch "short")).
Proof.
  intros decode. unfold decode. split; [|split].
  - refine (proj1 (decodeIdlAccountUnknown_rejects padded_digest
                     padded_digest_length _ _ sample_chain "elsewhere" _
                     eq_refl) _).
    vm_compute. discriminate.
  - refine (proj1 (proj2 (decodeIdlAccountUnknown_rejects padded_digest
                     padded_digest_length _ _ sample_chain "unknown" _
                     eq_refl)) eq_refl _).
    intros acc Hacc.
    apply elem_of_cons in Hacc as [->|Hacc];
      [vm_compute; discriminate|].
    apply elem_of_cons in Hacc as [->|Hacc];
      [vm_compute; discriminate|].
    by apply elem_of_nil in Hacc.
  - refine (proj2 (proj2 (decodeIdlAccountUnknown_rejects padded_digest
                     padded_digest_length _ _ sample_chain "short" _
                     eq_refl)) eq_refl _).
    vm_compute. lia.
Defined.

Example decodeIdlAccountUnknown_resolves :
  decodeIdlAccountUnknown padded_digest ["Position"; "Pool"]
    (λ _ _, Return sample_pool) sample_chain "pool"
  = Return ("Pool", sample_pool).
Proof. reflexivity. Qed.

(** ** Further facts about the wide-integer decoder *)

Lemma le_fold_inj a : ∀ b,
  length a = length b → le_fold a = le_fold b → a = b.
Proof.
  induction a as [|x a IH]; intros [|y b] Hlen Heq; try done.
  simpl in Hlen, Heq.
  pose proof (BigInt_of_byte_range x) as Hx.
  pose proof (BigInt_of_byte_range y) as Hy.
  assert (BigInt_of_byte x = BigInt_of_byte y) as Hxy by lia.
  f_equal.
  - by apply BigInt_of_byte_inj.
  - apply IH; [lia|lia].
Qed.

Lemma le_fold_zeros k : le_fold (replicate k Byte.x00) = 0.
Proof. induction k as [|k IH]; simpl; [done|]. rewrite IH. reflexivity. Qed.

(** Decoding a concatenation: the bytes of [q] sit above the [length p]
    low-order bytes of [p]. *)
Theorem u256BytesToBigInt_app (p q : list byte) :
  u256BytesToBigInt (p ++ q)
  = u256BytesToBigInt p + 256 ^ Z.of_nat (length p) * u256BytesToBigInt q.
Proof. rewrite !u256BytesToBigInt_fold. apply le_fold_app. Qed.

(** Two byte arrays of the same length that decode to the same integer are
    the same array. *)
Theorem u256BytesToBigInt_inj (a b : list byte) :
  length a = length b →
  u256BytesToBigInt a = u256BytesToBigInt b →
  a = b.
Proof. rewrite !u256BytesToBigInt_fold. apply le_fold_inj. Qed.

Lemma u256BytesToBigInt_inj_witness :
  units_of_scale Byte.x02 = le_bytes 32 (2 * 2 ^ 128).
Proof.
  apply (u256BytesToBigInt_inj (units_of_scale Byte.x02)
           (le_bytes 32 (2 * 2 ^ 128))).
  - reflexivity.
  - reflexivity.
Defined.

(** Zero bytes appended at the high end do not change the decoded value, so
    arrays of different lengths can decode to the same integer. *)
Theorem u256BytesToBigInt_trailing_zeros (b : list byte) (k : nat) :
  u256BytesToBigInt (b ++ replicate k Byte.x00) = u256BytesToBigInt b.
Proof.
  rewrite !u256BytesToBigInt_fold, le_fold_app, le_fold_zeros. lia.
Qed.

(** ** Further facts about the fee computation *)

Lemma delta_max a c : delta a c = Z.max 0 (a - c).
Proof. unfold delta. destruct (Z.ltb_spec (a - c) 0); lia. Qed.

Lemma newlyAccrued_div liquidity d :
  0 <= liquidity → 0 <= d →
  newlyAccrued liquidity d = (liquidity * d) / 2 ^ 128.
Proof.
  intros Hl Hd. unfold newlyAccrued.
  change LIQUIDITY_SCALE with (2 ^ 128).
  apply Z.quot_div_nonneg; [nia | lia].
Qed.

Lemma newlyAccrued_bounds liquidity d :
  0 <= liquidity → 0 <= d →
  newlyAccrued liquidity d * 2 ^ 128 <= liquidity * d
  < (newlyAccrued liquidity d + 1) * 2 ^ 128.
Proof.
  intros Hl Hd. rewrite newlyAccrued_div by done.
  pose proof (Z.div_mod (liquidity * d) (2 ^ 128) ltac:(lia)) as Hdm.
  pose proof (Z.mod_pos_bound (liquidity * d) (2 ^ 128) ltac:(lia)) as Hm.
  lia.
Qed.

(** A position account that lacks one of its three liquidity fields makes
    [computeUnclaimedTokenB] throw: no value is returned, whatever the
    pool account and the other fields are. *)
Theorem computeUnclaimedTokenB_missing_liquidity poolState posState key :
  key ∈ ["unlocked_liquidity"; "vested_liquidity";
         "permanent_locked_liquidity"] →
  posState !! key = None →
  ∃ e, computeUnclaimedTokenB poolState posState = Throw e.
Proof.
  intros Hkey Hnone. unfold computeUnclaimedTokenB.
  destruct (BigInt_of_toString (posState !! "unlocked_liquidity"))
    as [u|e1] eqn:Eu; [|by eexists].
  destruct (BigInt_of_toString (posState !! "vested_liquidity"))
    as [v|e2] eqn:Ev; [|by eexists].
  destruct (BigInt_of_toString (posState !! "permanent_locked_liquidity"))
    as [p|e3] eqn:Ep; [|by eexists].
  exfalso.
  apply elem_of_cons in Hkey as [->|Hkey];
    [rewrite Hnone in Eu; discriminate|].
  apply elem_of_cons in Hkey as [->|Hkey];
    [rewrite Hnone in Ev; discriminate|].
  apply elem_of_cons in Hkey as [->|Hkey];
    [rewrite Hnone in Ep; discriminate|].
  by apply elem_of_nil in Hkey.
Qed.

Lemma computeUnclaimedTokenB_missing_liquidity_witness :
  ∃ e, computeUnclaimedTokenB sample_pool
         (delete "vested_liquidity" sample_position) = Throw e.
Proof.
  apply (computeUnclaimedTokenB_missing_liquidity sample_pool
           (delete "vested_liquidity" sample_position) "vested_liquidity").
  - apply elem_of_cons. right. apply elem_of_cons. left. reflexivity.
  - reflexivity.
Defined.

(** With a non-zero total liquidity, [computeUnclaimedTokenB] throws a
    [TypeError] when the pool lacks [fee_b_per_liquidity] or the position
    lacks [fee_b_per_token_checkpoint] or [fee_b_pending]. *)
Theorem computeUnclaimedTokenB_missing_fee_field poolState posState u v p :
  liquidity_fields posState u v p →
  u + v + p ≠ 0 →
  poolState !! "fee_b_per_liquidity" = None
  ∨ posState !! "fee_b_per_token_checkpoint" = None
  ∨ posState !! "fee_b_pending" = None →
  computeUnclaimedTokenB poolState posState = Throw TypeError.
Proof.
  intros (Hu & Hv & Hp) Hsum Hmissing. unfold computeUnclaimedTokenB.
  rewrite Hu, Hv, Hp. simpl.
  destruct (Z.eqb_spec (u + v + p) 0) as [|_]; [done|].
  destruct (poolState !! "fee_b_per_liquidity") as [[n|acc]|] eqn:Eacc;
    try reflexivity.
  destruct (posState !! "fee_b_per_token_checkpoint") as [[n|ck]|] eqn:Eck;
    try reflexivity.
  destruct Hmissing as [?|[?|Hpend]]; try discriminate.
  rewrite Hpend. reflexivity.
Qed.

Lemma computeUnclaimedTokenB_missing_fee_field_witness :
  computeUnclaimedTokenB sample_position sample_position = Throw TypeError.
Proof.
  apply (computeUnclaimedTokenB_missing_fee_field sample_position
           sample_position 600000 300000 100000).
  - repeat split; reflexivity.
  - lia.
  - left. reflexivity.
Defined.

(** When the accumulator exceeds the checkpoint by [k] whole units of
    [LIQUIDITY_SCALE], the result is exactly [liquidity * k] plus the
    pending amount: nothing is lost to the division. *)
Theorem unclaimed_whole_units poolState posState u v p acc ck pend k :
  pool_fields poolState acc →
  liquidity_fields posState u v p →
  fee_fields posState ck pend →
  u + v + p ≠ 0 →
  0 <= k →
  u256BytesToBigInt acc = u256BytesToBigInt ck + k * LIQUIDITY_SCALE →
  computeUnclaimedTokenB poolState posState
  = Return ((u + v + p) * k + pend).
Proof.
  intros Hacc Hliq Hfee Hsum Hk Hunits.
  rewrite (computeUnclaimedTokenB_fields _ _ _ _ _ _ _ _ Hacc Hliq Hfee).
  unfold unclaimed.
  destruct (Z.eqb_spec (u + v + p) 0) as [|_]; [done|].
  pose proof LIQUIDITY_SCALE_pos as HS.
  rewrite delta_max, Hunits.
  replace (Z.max 0 (u256BytesToBigInt ck + k * LIQUIDITY_SCALE
                    - u256BytesToBigInt ck))
    with (k * LIQUIDITY_SCALE) by nia.
  unfold newlyAccrued.
  rewrite Z.mul_assoc, Z.quot_mul by lia. reflexivity.
Qed.

Lemma unclaimed_whole_units_witness :
  computeUnclaimedTokenB sample_pool sample_position
  = Return ((600000 + 300000 + 100000) * 1 + 500).
Proof.
  apply (unclaimed_whole_units sample_pool sample_position
           600000 300000 100000
           (units_of_scale Byte.x02) (units_of_scale Byte.x01) 500 1).
  - reflexivity.
  - repeat split; reflexivity.
  - repeat split; reflexivity.
  - lia.
  - lia.
  - reflexivity.
Defined.

(** For a position with non-negative liquidity components and non-zero
    total liquidity, the newly accrued part of the result is the floor of
    [liquidity * max(0, accumulator - checkpoint) / 2^128]: the result
    undercounts the exact quotient by less than one raw unit. *)
Theorem unclaimed_floor_bounds poolState posState u v p acc ck pend :
  pool_fields poolState acc →
  liquidity_fields posState u v p →
  fee_fields posState ck pend →
  0 <= u → 0 <= v → 0 <= p →
  u + v + p ≠ 0 →
  ∃ r,
    computeUnclaimedTokenB poolState posState = Return r
    ∧ (r - pend) * 2 ^ 128
      <= (u + v + p) * Z.max 0 (u256BytesToBigInt acc - u256BytesToBigInt ck)
      < (r - pend + 1) * 2 ^ 128.
Proof.
  intros Hacc Hliq Hfee Hu Hv Hp Hsum.
  eexists. split.
  - exact (computeUnclaimedTokenB_fields _ _ _ _ _ _ _ _ Hacc Hliq Hfee).
  - unfold unclaimed.
    destruct (Z.eqb_spec (u + v + p) 0) as [|_]; [done|].
    rewrite delta_max.
    pose proof (newlyAccrued_bounds (u + v + p)
                  (Z.max 0 (u256BytesToBigInt acc - u256BytesToBigInt ck))
                  ltac:(lia) ltac:(lia)) as Hb.
    replace (newlyAccrued (u + v + p)
               (Z.max 0 (u256BytesToBigInt acc - u256BytesToBigInt ck))
             + pend - pend)
      with (newlyAccrued (u + v + p)
              (Z.max 0 (u256BytesToBigInt acc - u256BytesToBigInt ck)))
      by lia.
    exact Hb.
Qed.

Lemma unclaimed_floor_bounds_witness :
  ∃ r,
    computeUnclaimedTokenB sample_pool sample_position = Return r
    ∧ (r - 500) * 2 ^ 128
      <= (600000 + 300000 + 100000)
         * Z.max 0 (u256BytesToBigInt (units_of_scale Byte.x02)
                    - u256BytesToBigInt (units_of_scale Byte.x01))
      < (r - 500 + 1) * 2 ^ 128.
Proof.
  apply (unclaimed_floor_bounds sample_pool sample_position
           600000 300000 100000
           (units_of_scale Byte.x02) (units_of_scale Byte.x01) 500).
  - reflexivity.
  - repeat split; reflexivity.
  - repeat split; reflexivity.
  - lia.
  - lia.
  - lia.
  - lia.
Defined.

(** For fixed pool, liquidity and pending amount, a later checkpoint never
    increases the result (liquidity components non-negative). *)
Theorem unclaimed_antitone_in_checkpoint
    poolState posState1 posState2 u v p acc ck1 ck2 pend :
  pool_fields poolState acc →
  liquidity_fields posState1 u v p →
  liquidity_fields posState2 u v p →
  fee_fields posState1 ck1 pend →
  fee_fields posState2 ck2 pend →
  0 <= u → 0 <= v → 0 <= p →
  u256BytesToBigInt ck1 <= u256BytesToBigInt ck2 →
  ∃ r1 r2,
    computeUnclaimedTokenB poolState posState1 = Return r1
    ∧ computeUnclaimedTokenB poolState posState2 = Return r2
    ∧ r2 <= r1.
Proof.
  intros Hacc Hliq1 Hliq2 Hfee1 Hfee2 Hu Hv Hp Hle.
  eexists _, _. split; [|split].
  - exact (computeUnclaimedTokenB_fields _ _ _ _ _ _ _ _ Hacc Hliq1 Hfee1).
  - exact (computeUnclaimedTokenB_fields _ _ _ _ _ _ _ _ Hacc Hliq2 Hfee2).
  - unfold unclaimed. destruct (u + v + p =? 0); [lia|].
    assert (delta (u256BytesToBigInt acc) (u256BytesToBigInt ck2)
            <= delta (u256BytesToBigInt acc) (u256BytesToBigInt ck1)) as Hd
      by (rewrite !delta_max; lia).
    pose proof (newlyAccrued_mono (u + v + p) _ _ ltac:(lia) Hd).
    lia.
Qed.

Lemma unclaimed_antitone_in_checkpoint_witness :
  ∃ r1 r2,
    computeUnclaimedTokenB sample_pool sample_position = Return r1
    ∧ computeUnclaimedTokenB sample_pool
        (<["fee_b_per_token_checkpoint" := VArr (units_of_scale Byte.x02)]>
           sample_position) = Return r2
    ∧ r2 <= r1.
Proof.
  apply (unclaimed_antitone_in_checkpoint sample_pool sample_position
           (<["fee_b_per_token_checkpoint" := VArr (units_of_scale Byte.x02)]>
              sample_position)
           600000 300000 100000
           (units_of_scale Byte.x02)
           (units_of_scale Byte.x01) (units_of_scale Byte.x02) 500).
  - reflexivity.
  - repeat split; reflexivity.
  - repeat split; reflexivity.
  - repeat split; reflexivity.
  - repeat split; reflexivity.
  - lia.
  - lia.
  - lia.
  - vm_compute. discriminate.
Defined.

(** Only the sum of the three liquidity components matters: two positions
    with the same checkpoint and pending amount whose components add up to
    the same total get the same result. *)
Theorem unclaimed_depends_on_total_liquidity
    poolState posState1 posState2 u1 v1 p1 u2 v2 p2 acc ck pend :
  pool_fields poolState acc →
  liquidity_fields posState1 u1 v1 p1 →
  liquidity_fields posState2 u2 v2 p2 →
  fee_fields posState1 ck pend →
  fee_fields posState2 ck pend →
  u1 + v1 + p1 = u2 + v2 + p2 →
  computeUnclaimedTokenB poolState posState1
  = computeUnclaimedTokenB poolState posState2.
Proof.
  intros Hacc Hliq1 Hliq2 Hfee1 Hfee2 Hsum.
  rewrite (computeUnclaimedTokenB_fields _ _ _ _ _ _ _ _ Hacc Hliq1 Hfee1).
  rewrite (computeUnclaimedTokenB_fields _ _ _ _ _ _ _ _ Hacc Hliq2 Hfee2).
  unfold unclaimed. by rewrite Hsum.
Qed.

Lemma unclaimed_depends_on_total_liquidity_witness :
  computeUnclaimedTokenB sample_pool sample_position
  = computeUnclaimedTokenB sample_pool
      (<["unlocked_liquidity" := VBN 0]>
         (<["vested_liquidity" := VBN 900000]> sample_position)).
Proof.
  apply (unclaimed_depends_on_total_liquidity sample_pool sample_position
           (<["unlocked_liquidity" := VBN 0]>
              (<["vested_liquidity" := VBN 900000]> sample_position))
           600000 300000 100000 0 900000 100000
           (units_of_scale Byte.x02) (units_of_scale Byte.x01) 500).
  - reflexivity.
  - repeat split; reflexivity.
  - repeat split; reflexivity.
  - repeat split; reflexivity.
  - repeat split; reflexivity.
  - reflexivity.
Defined.

(** Settling in two steps: let the accumulator pass from the checkpoint
    [c] to [b] and then to [a] ([c <= b <= a]). Computing at [b], storing
    that result as the pending amount with checkpoint [b], and computing
    again at [a] gives at most the direct result at [a] and at most one raw
    unit less. *)
Theorem unclaimed_two_step_settlement
    pool_b pool_a posState posState' u v p acc_b acc_a ck ck' pend r1 :
  pool_fields pool_b acc_b →
  pool_fields pool_a acc_a →
  liquidity_fields posState u v p →
  fee_fields posState ck pend →
  liquidity_fields posState' u v p →
  fee_fields posState' ck' r1 →
  0 <= u → 0 <= v → 0 <= p → u + v + p ≠ 0 →
  u256BytesToBigInt ck <= u256BytesToBigInt acc_b →
  u256BytesToBigInt acc_b <= u256BytesToBigInt acc_a →
  u256BytesToBigInt ck' = u256BytesToBigInt acc_b →
  computeUnclaimedTokenB pool_b posState = Return r1 →
  ∃ r2 r,
    computeUnclaimedTokenB pool_a posState' = Return r2
    ∧ computeUnclaimedTokenB pool_a posState = Return r
    ∧ r - 1 <= r2 <= r.
Proof.
  intros Hb Ha Hliq Hfee Hliq' Hfee' Hu Hv Hp Hsum Hcb Hba Hck' Hr1.
  rewrite (computeUnclaimedTokenB_fields _ _ _ _ _ _ _ _ Hb Hliq Hfee) in Hr1.
  injection Hr1 as Hr1.
  eexists _, _. split; [|split].
  - exact (computeUnclaimedTokenB_fields _ _ _ _ _ _ _ _ Ha Hliq' Hfee').
  - exact (computeUnclaimedTokenB_fields _ _ _ _ _ _ _ _ Ha Hliq Hfee).
  - subst r1. unfold unclaimed.
    destruct (Z.eqb_spec (u + v + p) 0) as [|_]; [done|].
    rewrite !delta_max, Hck'.
    set (L := u + v + p).
    set (a := u256BytesToBigInt acc_a) in *.
    set (b := u256BytesToBigInt acc_b) in *.
    set (c := u256BytesToBigInt ck) in *.
    replace (Z.max 0 (a - b)) with (a - b) by lia.
    replace (Z.max 0 (b - c)) with (b - c) by lia.
    replace (Z.max 0 (a - c)) with (a - c) by lia.
    assert (0 <= L) as HL by (unfold L; lia).
    pose proof (newlyAccrued_bounds L (a - b) HL ltac:(lia)) as H1.
    pose proof (newlyAccrued_bounds L (b - c) HL ltac:(lia)) as H2.
    pose proof (newlyAccrued_bounds L (a - c) HL ltac:(lia)) as H3.
    assert (L * (a - c) = L * (a - b) + L * (b - c)) as Hsplit by lia.
    generalize dependent (newlyAccrued L (a - b)).
    generalize dependent (newlyAccrued L (b - c)).
    generalize dependent (newlyAccrued L (a - c)).
    intros q3 H3 q2 H2 q1 H1. lia.
Qed.

Lemma unclaimed_two_step_settlement_witness :
  ∃ r2 r,
    computeUnclaimedTokenB
      (<["fee_b_per_liquidity" := VArr (units_of_scale Byte.x03)]> sample_pool)
      (<["fee_b_per_token_checkpoint" := VArr (units_of_scale Byte.x02)]>
         (<["fee_b_pending" := VBN 1000500]> sample_position))
    = Return r2
    ∧ computeUnclaimedTokenB
        (<["fee_b_per_liquidity" := VArr (units_of_scale Byte.x03)]>
           sample_pool)
        sample_position
      = Return r
    ∧ r - 1 <= r2 <= r.
Proof.
  apply (unclaimed_two_step_settlement sample_pool
           (<["fee_b_per_liquidity" := VArr (units_of_scale Byte.x03)]>
              sample_pool)
           sample_position
           (<["fee_b_per_token_checkpoint" := VArr (units_of_scale Byte.x02)]>
              (<["fee_b_pending" := VBN 1000500]> sample_position))
           600000 300000 100000
           (units_of_scale Byte.x02) (units_of_scale Byte.x03)
           (units_of_scale Byte.x01) (units_of_scale Byte.x02) 500 1000500).
  - reflexivity.
  - reflexivity.
  - repeat split; reflexivity.
  - repeat split; reflexivity.
  - repeat split; reflexivity.
  - repeat split; reflexivity.
  - lia.
  - lia.
  - lia.
  - lia.
  - vm_compute. discriminate.
  - vm_compute. discriminate.
  - reflexivity.
  - reflexivity.
Defined.

(** ** Further facts about the role assignment *)

(** The outcome of the role assignment in every case: it fails with the
    neither-is-a-pool error exactly when neither account carries
    [fee_b_per_liquidity], with the missing-checkpoint error exactly when a
    pool was found but the other account lacks
    [fee_b_per_token_checkpoint], and otherwise returns the first account
    that carries [fee_b_per_liquidity] as the pool and the other one as
    the position. *)
Lemma processPair_roles_outcome pairName (A B : Account) :
  processPair_roles pairName A B
  = if has_field "fee_b_per_liquidity" A then
      if has_field "fee_b_per_token_checkpoint" B then Return (A, B)
      else Throw (Error (MissingCheckpoint pairName))
    else if has_field "fee_b_per_liquidity" B then
      if has_field "fee_b_per_token_checkpoint" A then Return (B, A)
      else Throw (Error (MissingCheckpoint pairName))
    else Throw (Error (NeitherLooksLikePool pairName)).
Proof.
  unfold processPair_roles.
  destruct (has_field "fee_b_per_liquidity" A),
           (has_field "fee_b_per_liquidity" B); simpl;
    try reflexivity;
    try (by destruct (has_field "fee_b_per_token_checkpoint" B));
    by destruct (has_field "fee_b_per_token_checkpoint" A).
Qed.

(** Whatever the two accounts are, a successful role assignment returns the
    two accounts it was given (in one order or the other), the pool carries
    [fee_b_per_liquidity] and the position carries
    [fee_b_per_token_checkpoint], so the fee computation never reads a
    missing accumulator or checkpoint. *)
Theorem processPair_roles_sound pairName (A B poolState posState : Account) :
  processPair_roles pairName A B = Return (poolState, posState) →
  ((poolState = A ∧ posState = B) ∨ (poolState = B ∧ posState = A))
  ∧ is_Some (poolState !! "fee_b_per_liquidity")
  ∧ is_Some (posState !! "fee_b_per_token_checkpoint").
Proof.
  unfold processPair_roles, has_field.
  destruct (A !! "fee_b_per_liquidity") eqn:HA,
           (B !! "fee_b_per_liquidity") eqn:HB; simpl;
    try (destruct (B !! "fee_b_per_token_checkpoint") eqn:HcB);
    try (destruct (A !! "fee_b_per_token_checkpoint") eqn:HcA);
    simpl; intros Hret; inversion Hret; subst;
    rewrite ?HA, ?HB, ?HcA, ?HcB; eauto.
Qed.

Lemma processPair_roles_sound_witness :
  ((sample_pool = sample_position ∧ sample_position = sample_pool)
   ∨ (sample_pool = sample_pool ∧ sample_position = sample_position))
  ∧ is_Some (sample_pool !! "fee_b_per_liquidity")
  ∧ is_Some (sample_position !! "fee_b_per_token_checkpoint").
Proof.
  apply (processPair_roles_sound "SOL/SCARCE" sample_position sample_pool
           sample_pool sample_position).
  reflexivity.
Defined.

(** ** Further facts about the resolver *)

Lemma no_name_false matchedName :
  no_name matchedName = false ↔
  ∃ s, matchedName = Some s ∧ s ≠ EmptyString.
Proof.
  destruct matchedName as [s|]; simpl.
  - rewrite String.eqb_neq. split; [by eauto|]. by intros (? & [= <-] & ?).
  - split; [done|]. by intros (? & ? & ?).
Qed.

Section ResolverMore.

Variable sha256 : string → list byte.
Hypothesis sha256_length : ∀ s, length (sha256 s) = 32%nat.
Variable coder_decode : string → list byte → result Account.
Variable getAccountInfo : PublicKey → option AccountInfo.

Lemma discriminators_foldl (l : list string) :
  ∀ (m : gmap string (list byte)) acc,
  foldl (λ m a, <[a := accountDiscriminator sha256 a]> m) m l !! acc
  = if decide (acc ∈ l) then Some (accountDiscriminator sha256 acc)
    else m !! acc.
Proof.
  induction l as [|a l IH]; intros m acc.
  - destruct (decide (acc ∈ [])) as [H|_]; [by apply elem_of_nil in H|done].
  - cbn [foldl]. rewrite IH. destruct (decide (acc ∈ l)) as [Hin|Hnin].
    + rewrite decide_True; [done|]. by apply elem_of_cons; right.
    + destruct (decide (a = acc)) as [->|Hne].
      * rewrite lookup_insert_eq, decide_True; [done|].
        by apply elem_of_cons; left.
      * rewrite lookup_insert_ne, decide_False; [done| |done].
        intros [?|?]%elem_of_cons; congruence.
Qed.

Lemma discriminators_lookup (idl_accounts : list string) acc :
  idlAccountDiscriminators sha256 idl_accounts !! acc
  = if decide (acc ∈ idl_accounts)
    then Some (accountDiscriminator sha256 acc) else None.
Proof.
  unfold idlAccountDiscriminators. rewrite discriminators_foldl.
  by rewrite lookup_empty.
Qed.

(** The table of discriminators built from the IDL has exactly the account
    names of the IDL as keys, and under each name it holds the first 8
    bytes of the digest of that name. *)
Theorem idlAccountDiscriminators_spec (idl_accounts : list string) :
  dom (idlAccountDiscriminators sha256 idl_accounts)
  = list_to_set idl_accounts
  ∧ ∀ acc expectedDisc,
      idlAccountDiscriminators sha256 idl_accounts !! acc = Some expectedDisc →
      expectedDisc = take 8 (sha256 ("account:" +:+ acc))
      ∧ length expectedDisc = 8%nat.
Proof.
  split.
  - apply set_eq. intros acc.
    rewrite elem_of_dom, elem_of_list_to_set, discriminators_lookup.
    case_decide; split; try done; by intros [].
  - intros acc d. rewrite discriminators_lookup.
    case_decide; [|done]. intros [= <-]. split; [done|].
    unfold accountDiscriminator. rewrite length_take, sha256_length. lia.
Qed.

Lemma matchDiscriminator_table (table : list string) acc rest disc :
  acc ∈ table →
  matchDiscriminator (idlAccountDiscriminators sha256 table) (acc :: rest) disc
  = if decide (accountDiscriminator sha256 acc = disc) then Some acc
    else matchDiscriminator (idlAccountDiscriminators sha256 table) rest disc.
Proof.
  intros Hin. simpl.
  rewrite discriminators_lookup, decide_True by done.
  destruct (Z.eqb_spec (Buffer_compare (accountDiscriminator sha256 acc) disc)
              0) as [H0|H0].
  - apply Buffer_compare_zero in H0. by rewrite decide_True.
  - rewrite decide_False; [done|]. intros Heq. apply H0.
    by apply Buffer_compare_zero.
Qed.

Lemma matchDiscriminator_first (table : list string) disc :
  ∀ pre nm post,
    (∀ a, a ∈ pre ++ nm :: post → a ∈ table) →
    (∀ a, a ∈ pre → accountDiscriminator sha256 a ≠ disc) →
    accountDiscriminator sha256 nm = disc →
    matchDiscriminator (idlAccountDiscriminators sha256 table)
      (pre ++ nm :: post) disc = Some nm.
Proof.
  induction pre as [|a pre IH]; intros nm post Hsub Hpre Hnm.
  - cbn [app]. rewrite matchDiscriminator_table, decide_True; [done..|].
    apply Hsub, elem_of_cons. by left.
  - cbn [app]. rewrite matchDiscriminator_table, decide_False.
    + apply IH; [|intros b Hb; apply Hpre, elem_of_cons; by right|done].
      intros b Hb. apply Hsub. cbn [app]. apply elem_of_cons. by right.
    + apply Hpre, elem_of_cons. by left.
    + apply Hsub. cbn [app]. apply elem_of_cons. by left.
Qed.

Lemma matchDiscriminator_some (table : list string) disc nm :
  ∀ accounts,
    (∀ a, a ∈ accounts → a ∈ table) →
    matchDiscriminator (idlAccountDiscriminators sha256 table) accounts disc
    = Some nm →
    ∃ pre post,
      accounts = pre ++ nm :: post
      ∧ (∀ a, a ∈ pre → accountDiscriminator sha256 a ≠ disc)
      ∧ accountDiscriminator sha256 nm = disc.
Proof.
  induction accounts as [|a rest IH]; intros Hsub Hm; [done|].
  rewrite matchDiscriminator_table in Hm
    by (apply Hsub, elem_of_cons; by left).
  destruct (decide (accountDiscriminator sha256 a = disc)) as [Ha|Ha].
  - injection Hm as <-. exists [], rest. split; [done|]. split; [|done].
    intros b Hb. by apply elem_of_nil in Hb.
  - destruct IH as (pre & post & -> & Hpre & Hnm); [|done|].
    { intros b Hb. apply Hsub, elem_of_cons. by right. }
    exists (a :: pre), post. split; [done|]. split; [|done].
    intros b [->|Hb]%elem_of_cons; [done|by apply Hpre].
Qed.

(** A successful resolution: the account exists, is owned by
    [PROGRAM_ID], has at least 8 bytes of data, and the returned type is a
    non-empty account name of the IDL, the first one whose discriminator
    equals the first 8 bytes of the data; the returned fields are what the
    coder decodes from the whole data under that name. *)
Theorem decodeIdlAccountUnknown_sound
    (idl_accounts : list string) pubkey type parsed :
  decodeIdlAccountUnknown sha256 idl_accounts coder_decode getAccountInfo
    pubkey = Return (type, parsed) →
  ∃ info pre post,
    getAccountInfo pubkey = Some info
    ∧ owner info = PROGRAM_ID
    ∧ (8 <= length (data info))%nat
    ∧ type ≠ EmptyString
    ∧ idl_accounts = pre ++ type :: post
    ∧ (∀ a, a ∈ pre → accountDiscriminator sha256 a ≠ take 8 (data info))
    ∧ accountDiscriminator sha256 type = take 8 (data info)
    ∧ coder_decode type (data info) = Return parsed.
Proof.
  unfold decodeIdlAccountUnknown.
  destruct (getAccountInfo pubkey) as [info|] eqn:Hinfo; [|done].
  destruct (String.eqb_spec (owner info) PROGRAM_ID) as [Howner|_]; [|done].
  simpl.
  destruct (no_name _) eqn:Hname; [done|].
  apply no_name_false in Hname as (nm & Hm & Hne). rewrite Hm.
  destruct (coder_decode nm (data info)) as [fields|e] eqn:Hdec; [|done].
  simpl. intros [= <- <-].
  apply matchDiscriminator_some in Hm as (pre & post & Hidl & Hpre & Hnm);
    [|done].
  exists info, pre, post. repeat split; try done.
  apply (f_equal length) in Hnm.
  unfold accountDiscriminator in Hnm.
  rewrite !length_take, sha256_length in Hnm. lia.
Qed.

(** First match wins: for an account owned by [PROGRAM_ID], if a non-empty
    name of the IDL has the discriminator found in the first 8 bytes of
    the data and no earlier name of the IDL has it, the account is decoded
    under that name and the outcome is the coder's (its fields, or its
    exception). *)
Theorem decodeIdlAccountUnknown_first_match
    (idl_accounts : list string) pubkey info pre type post :
  getAccountInfo pubkey = Some info →
  owner info = PROGRAM_ID →
  idl_accounts = pre ++ type :: post →
  (∀ a, a ∈ pre → accountDiscriminator sha256 a ≠ take 8 (data info)) →
  accountDiscriminator sha256 type = take 8 (data info) →
  type ≠ EmptyString →
  decodeIdlAccountUnknown sha256 idl_accounts coder_decode getAccountInfo
    pubkey
  = match coder_decode type (data info) with
    | Return parsed => Return (type, parsed)
    | Throw e => Throw e
    end.
Proof.
  intros Hinfo Howner -> Hpre Htype Hne.
  unfold decodeIdlAccountUnknown.
  rewrite Hinfo, Howner, String.eqb_refl. simpl.
  rewrite matchDiscriminator_first by done.
  simpl. apply String.eqb_neq in Hne. by rewrite Hne.
Qed.

Lemma matchDiscriminator_none_inv (table : list string) disc :
  ∀ accounts,
    (∀ a, a ∈ accounts → a ∈ table) →
    matchDiscriminator (idlAccountDiscriminators sha256 table) accounts disc
    = None →
    ∀ a, a ∈ accounts → accountDiscriminator sha256 a ≠ disc.
Proof.
  induction accounts as [|b rest IH]; intros Hsub Hm a Ha.
  - by apply elem_of_nil in Ha.
  - rewrite matchDiscriminator_table in Hm
      by (apply Hsub, elem_of_cons; by left).
    destruct (decide (accountDiscriminator sha256 b = disc)) as [|Hb];
      [done|].
    apply elem_of_cons in Ha as [->|Ha]; [done|].
    apply IH; [|done..].
    intros c Hc. apply Hsub, elem_of_cons. by right.
Qed.

Lemma discriminators_Permutation (l1 l2 : list string) :
  l1 ≡ₚ l2 →
  idlAccountDiscriminators sha256 l1 = idlAccountDiscriminators sha256 l2.
Proof.
  intros Hperm. apply map_eq. intros acc.
  rewrite !discriminators_lookup.
  destruct (decide (acc ∈ l1)) as [H1|H1], (decide (acc ∈ l2)) as [H2|H2];
    try done; rewrite Hperm in H1; done.
Qed.

(** When the discriminators of the IDL account names are pairwise distinct,
    the order of the accounts in the IDL is immaterial: resolving against
    a reordered IDL gives the same outcome. *)
Theorem decodeIdlAccountUnknown_order_immaterial
    (idl1 idl2 : list string) pubkey :
  idl1 ≡ₚ idl2 →
  (∀ a b, a ∈ idl1 → b ∈ idl1 →
          accountDiscriminator sha256 a = accountDiscriminator sha256 b →
          a = b) →
  decodeIdlAccountUnknown sha256 idl1 coder_decode getAccountInfo pubkey
  = decodeIdlAccountUnknown sha256 idl2 coder_decode getAccountInfo pubkey.
Proof.
  intros Hperm Hinj. unfold decodeIdlAccountUnknown.
  destruct (getAccountInfo pubkey) as [info|]; [|done].
  destruct (negb _); [done|]. simpl.
  rewrite <- (discriminators_Permutation idl1 idl2 Hperm).
  set (table := idlAccountDiscriminators sha256 idl1).
  set (disc := take 8 (data info)).
  assert (matchDiscriminator table idl1 disc
          = matchDiscriminator table idl2 disc) as ->; [|done].
  assert (∀ a, a ∈ idl2 → a ∈ idl1) as Hsub2
    by (intros a Ha; by rewrite Hperm).
  destruct (matchDiscriminator table idl1 disc) as [n1|] eqn:E1,
           (matchDiscriminator table idl2 disc) as [n2|] eqn:E2;
    try done.
  - apply matchDiscriminator_some in E1 as (pre1 & post1 & Hl1 & _ & Hn1);
      [|done].
    apply matchDiscriminator_some in E2 as (pre2 & post2 & Hl2 & _ & Hn2);
      [|done].
    f_equal. apply Hinj; [| |congruence].
    + rewrite Hl1. apply elem_of_app. right. apply elem_of_cons. by left.
    + apply Hsub2. rewrite Hl2. apply elem_of_app. right.
      apply elem_of_cons. by left.
  - apply matchDiscriminator_some in E1 as (pre1 & post1 & Hl1 & _ & Hn1);
      [|done].
    exfalso. eapply (matchDiscriminator_none_inv _ _ _ Hsub2 E2 n1); [|done].
    rewrite <- Hperm, Hl1. apply elem_of_app. right.
    apply elem_of_cons. by left.
  - apply matchDiscriminator_some in E2 as (pre2 & post2 & Hl2 & _ & Hn2);
      [|done].
    exfalso.
    eapply (matchDiscriminator_none_inv _ _ _ (λ a Ha, Ha) E1 n2); [|done].
    apply Hsub2. rewrite Hl2. apply elem_of_app. right.
    apply elem_of_cons. by left.
Qed.

End ResolverMore.

Lemma idlAccountDiscriminators_spec_witness :
  accountDiscriminator padded_digest "Pool"
  = take 8 (padded_digest ("account:" +:+ "Pool"))
  ∧ length (accountDiscriminator padded_digest "Pool") = 8%nat.
Proof.
  apply (proj2 (idlAccountDiscriminators_spec padded_digest
                  padded_digest_length ["Position"; "Pool"]) "Pool").
  reflexivity.
Defined.

Lemma decodeIdlAccountUnknown_sound_witness :
  ∃ info pre post,
    sample_chain "pool" = Some info
    ∧ owner info = PROGRAM_ID
    ∧ (8 <= length (data info))%nat
    ∧ "Pool" ≠ EmptyString
    ∧ ["Position"; "Pool"] = pre ++ "Pool" :: post
    ∧ (∀ a, a ∈ pre →
            accountDiscriminator padded_digest a ≠ take 8 (data info))
    ∧ accountDiscriminator padded_digest "Pool" = take 8 (data info)
    ∧ (λ _ _, Return sample_pool) "Pool" (data info) = Return sample_pool.
Proof.
  apply (decodeIdlAccountUnknown_sound padded_digest padded_digest_length
           (λ _ _, Return sample_pool) sample_chain
           ["Position"; "Pool"] "pool" "Pool" sample_pool).
  reflexivity.
Defined.

Lemma decodeIdlAccountUnknown_first_match_witness :
  decodeIdlAccountUnknown padded_digest ["Position"; "Pool"]
    (λ _ _, Return sample_pool) sample_chain "pool"
  = Return ("Pool", sample_pool).
Proof.
  apply (decodeIdlAccountUnknown_first_match padded_digest
           (λ _ _, Return sample_pool) sample_chain
           ["Position"; "Pool"] "pool"
           {| owner := PROGRAM_ID;
              data := accountDiscriminator padded_digest "Pool"
                      ++ [Byte.x00] |}
           ["Position"] "Pool" []).
  - reflexivity.
  - reflexivity.
  - reflexivity.
  - intros a Ha.
    apply elem_of_cons in Ha as [->|Ha]; [vm_compute; discriminate|].
    by apply elem_of_nil in Ha.
  - reflexivity.
  - discriminate.
Defined.

Lemma decodeIdlAccountUnknown_order_immaterial_witness :
  decodeIdlAccountUnknown padded_digest ["Pool"; "Position"]
    (λ _ _, Return sample_pool) sample_chain "pool"
  = decodeIdlAccountUnknown padded_digest ["Position"; "Pool"]
      (λ _ _, Return sample_pool) sample_chain "pool".
Proof.
  apply (decodeIdlAccountUnknown_order_immaterial padded_digest
           (λ _ _, Return sample_pool) sample_chain
           ["Pool"; "Position"] ["Position"; "Pool"] "pool").
  - apply perm_swap.
  - intros a b Ha Hb.
    apply elem_of_cons in Ha as [->|Ha];
      [|apply elem_of_cons in Ha as [->|Ha];
        [|by apply elem_of_nil in Ha]];
      (apply elem_of_cons in Hb as [->|Hb];
       [|apply elem_of_cons in Hb as [->|Hb];
         [|by apply elem_of_nil in Hb]]);
      first [reflexivity | vm_compute; discriminate].
Defined.

(** ** Facts about processing a pair *)

Section PairFacts.

Variable sha256 : string → list byte.
Variable idl_accounts : list string.
Variable coder_decode : string → list byte → result Account.
Variable getAccountInfo : PublicKey → option AccountInfo.

Local Abbreviation decode :=
  (decodeIdlAccountUnknown sha256 idl_accounts coder_decode getAccountInfo).
Local Abbreviation process :=
  (processPair sha256 idl_accounts coder_decode getAccountInfo).

(** End to end: when the account at the pool address decodes to an account
    with [fee_b_per_liquidity] and the one at the position address to an
    account with [fee_b_per_token_checkpoint], [processPair] is the fee
    computation on those two accounts, in that order. *)
Theorem processPair_computes pair type1 type2 (A B : Account) :
  decode (pool pair) = Return (type1, A) →
  decode (position pair) = Return (type2, B) →
  is_Some (A !! "fee_b_per_liquidity") →
  is_Some (B !! "fee_b_per_token_checkpoint") →
  process pair = computeUnclaimedTokenB A B.
Proof.
  intros HA HB [a Ha] [b Hb]. unfold processPair.
  rewrite HA, HB. simpl.
  rewrite processPair_roles_outcome. unfold has_field.
  by rewrite Ha, Hb.
Qed.

(** Configuring the two addresses of a pair the wrong way round does not
    change the result: when both accounts decode and it is not the case
    that both carry [fee_b_per_liquidity] while one of them also carries
    [fee_b_per_token_checkpoint], [processPair] gives the same outcome with
    the pool and position addresses exchanged. *)
Theorem processPair_addresses_swapped pair type1 type2 (A B : Account) :
  decode (pool pair) = Return (type1, A) →
  decode (position pair) = Return (type2, B) →
  has_field "fee_b_per_liquidity" A && has_field "fee_b_per_liquidity" B
  && (has_field "fee_b_per_token_checkpoint" A
      || has_field "fee_b_per_token_checkpoint" B)
  = false →
  process pair
  = process {| name := name pair;
               pool := position pair;
               position := pool pair |}.
Proof.
  intros HA HB Hnot. unfold processPair. simpl.
  rewrite HA, HB. simpl.
  rewrite !processPair_roles_outcome.
  destruct (has_field "fee_b_per_liquidity" A),
           (has_field "fee_b_per_liquidity" B),
           (has_field "fee_b_per_token_checkpoint" A),
           (has_field "fee_b_per_token_checkpoint" B);
    try discriminate Hnot; reflexivity.
Qed.

End PairFacts.

Lemma processPair_computes_witness :
  processPair padded_digest ["Pool"; "Position"] sample_coder sample_chain
    sample_pair
  = computeUnclaimedTokenB sample_pool sample_position.
Proof.
  apply (processPair_computes padded_digest ["Pool"; "Position"] sample_coder
           sample_chain sample_pair "Pool" "Position"
           sample_pool sample_position).
  - reflexivity.
  - reflexivity.
  - eexists. reflexivity.
  - eexists. reflexivity.
Defined.

Lemma processPair_addresses_swapped_witness :
  processPair padded_digest ["Pool"; "Position"] sample_coder sample_chain
    sample_pair
  = processPair padded_digest ["Pool"; "Position"] sample_coder sample_chain
      {| name := "SOL/SCARCE"; pool := "position"; position := "pool" |}.
Proof.
  apply (processPair_addresses_swapped padded_digest ["Pool"; "Position"]
           sample_coder sample_chain sample_pair "Pool" "Position"
           sample_pool sample_position).
  - reflexivity.
  - reflexivity.
  - reflexivity.
Defined.

Example processPair_sample :
  processPair padded_digest ["Pool"; "Position"] sample_coder sample_chain
    sample_pair
  = Return 1000500.
Proof. reflexivity. Qed.

(** ** Facts about the snapshot run *)

Section SnapshotFacts.

Variable sha256 : string → list byte.
Variable idl_accounts : list string.
Variable coder_decode : string → list byte → result Account.
Variable getAccountInfo : PublicKey → option AccountInfo.
Variable Number : Type.
Variable Number_zero : Number.
Variable tokens_of_raw : Z → Number.
Variable Number_toString : Number → string.

Local Abbreviation process :=
  (processPair sha256 idl_accounts coder_decode getAccountInfo).
Local Abbreviation step :=
  (main_step sha256 idl_accounts coder_decode getAccountInfo
     Number Number_zero tokens_of_raw).
Local Abbreviation loop :=
  (main_loop sha256 idl_accounts coder_decode getAccountInfo
     Number Number_zero tokens_of_raw).

(** What the loop records for a pair: its amount in tokens, or [0] when
    processing it throws. *)
Local Abbreviation recorded := (λ pair : Pair,
  match process pair with
  | Return totalPendingRaw => tokens_of_raw totalPendingRaw
  | Throw _ => Number_zero
  end).

Lemma main_loop_snoc pairs pair st :
  loop (pairs ++ [pair]) st = step (loop pairs st) pair.
Proof. unfold main_loop. apply foldl_snoc. Qed.

Lemma main_step_totalRaw st pair :
  totalRaw Number (step st pair)
  = totalRaw Number st + raw_or_zero (process pair).
Proof.
  unfold main_step. destruct (process pair); simpl; lia.
Qed.

Lemma main_step_lookup st pair key :
  perPairTokens Number (step st pair) !! key
  = if decide (name pair = key) then Some (recorded pair)
    else perPairTokens Number st !! key.
Proof.
  unfold main_step.
  destruct (process pair); simpl;
    (destruct (decide (name pair = key)) as [->|Hne];
     [by rewrite lookup_insert_eq | by rewrite lookup_insert_ne]).
Qed.

Lemma main_loop_totalRaw_sum pairs st :
  totalRaw Number (loop pairs st)
  = totalRaw Number st
    + foldr Z.add 0 ((λ pair, raw_or_zero (process pair)) <$> pairs).
Proof.
  revert st. induction pairs as [|pair pairs IH]; intros st.
  - simpl. lia.
  - change (loop (pair :: pairs) st) with (loop pairs (step st pair)).
    rewrite IH, main_step_totalRaw, fmap_cons. simpl foldr. lia.
Qed.

Lemma main_loop_entries pairs st :
  NoDup (name <$> pairs) →
  (∀ pair, pair ∈ pairs →
     perPairTokens Number (loop pairs st) !! name pair
     = Some (recorded pair))
  ∧ (∀ key, key ∉ name <$> pairs →
       perPairTokens Number (loop pairs st) !! key
       = perPairTokens Number st !! key).
Proof.
  induction pairs as [|last pairs IH] using rev_ind; intros Hnodup.
  - split; [intros pair Hin; by apply elem_of_nil in Hin|done].
  - rewrite fmap_app in Hnodup. simpl in Hnodup.
    apply NoDup_app in Hnodup as (Hnd & Hfresh & _).
    destruct (IH Hnd) as [IHin IHout].
    split.
    + intros pair Hin. rewrite main_loop_snoc, main_step_lookup.
      destruct (decide (name last = name pair)) as [Heq|Hne].
      * apply elem_of_app in Hin as [Hin|Hin].
        -- exfalso. apply (Hfresh (name pair)).
           ++ by apply list_elem_of_fmap_2.
           ++ rewrite Heq. apply elem_of_cons. by left.
        -- apply elem_of_cons in Hin as [->|Hin]; [done|].
           by apply elem_of_nil in Hin.
      * apply elem_of_app in Hin as [Hin|Hin]; [by apply IHin|].
        apply elem_of_cons in Hin as [->|Hin]; [done|].
        by apply elem_of_nil in Hin.
    + intros key Hkey. rewrite main_loop_snoc, main_step_lookup.
      rewrite fmap_app in Hkey.
      rewrite decide_False.
      * apply IHout. intros Hin. apply Hkey, elem_of_app. by left.
      * intros Heq. apply Hkey, elem_of_app. right. simpl.
        apply elem_of_cons. by left.
Qed.

(** Starting from the empty record, after the loop over pairs with distinct
    names the keys of [perPairTokens] are exactly the pair names, and each
    pair's entry is its own amount in tokens, or [0] when processing it
    threw. *)
Theorem main_loop_perPairTokens pairs :
  NoDup (name <$> pairs) →
  let st :=
    main_loop sha256 idl_accounts coder_decode getAccountInfo
      Number Number_zero tokens_of_raw pairs
      {| perPairTokens := ∅; totalRaw := 0 |} in
  dom (perPairTokens Number st) = list_to_set (name <$> pairs)
  ∧ ∀ pair, pair ∈ pairs →
      perPairTokens Number st !! name pair = Some (recorded pair).
Proof.
  intros Hnodup st.
  destruct (main_loop_entries pairs {| perPairTokens := ∅; totalRaw := 0 |}
              Hnodup) as [Hin Hout].
  split; [|exact Hin].
  apply set_eq. intros key.
  rewrite elem_of_dom, elem_of_list_to_set. split.
  - intros Hsome. destruct (decide (key ∈ name <$> pairs)) as [|Hnot]; [done|].
    unfold st in Hsome. rewrite (Hout key Hnot) in Hsome. simpl in Hsome.
    rewrite lookup_empty in Hsome. by destruct Hsome.
  - intros (pair & -> & Hpair)%list_elem_of_fmap.
    unfold st. rewrite (Hin pair Hpair). by eexists.
Qed.

Lemma PAIRS_names_NoDup : NoDup (name <$> PAIRS).
Proof. apply (bool_decide_unpack _). vm_compute. exact I. Qed.

(** What one run does to the CSV file: a missing or empty file first gets
    the header, an existing non-empty file is kept as it is; then exactly
    one row is appended, made of the timestamp, one column per pair in the
    order of [PAIRS] holding that pair's own amount (or [0] when processing
    it threw), and the total of the amounts of the pairs that were
    processed. *)
Theorem main_csv_row timestampIso file :
  main sha256 idl_accounts coder_decode getAccountInfo
    Number Number_zero tokens_of_raw Number_toString timestampIso file
  = Some
      (match file with
       | Some content =>
           if (String.length content =? 0)%nat
           then "time,USDC/SCARCE,SOL/SCARCE,ETH/SCARCE,BTC/SCARCE,Total"
                +:+ newline
           else content
       | None =>
           "time,USDC/SCARCE,SOL/SCARCE,ETH/SCARCE,BTC/SCARCE,Total"
           +:+ newline
       end
       +:+ (timestampIso +:+ ","
            +:+ join_comma (Number_toString <$> (recorded <$> PAIRS))
            +:+ ","
            +:+ Number_toString
                  (tokens_of_raw
                     (foldr Z.add 0
                        ((λ pair, raw_or_zero (process pair)) <$> PAIRS)))
            +:+ newline)).
Proof.
  unfold main, appendCsvCombinedRow, appendFileSync.
  rewrite main_loop_totalRaw_sum.
  assert (csv_cols Number Number_zero
            (perPairTokens Number
               (loop PAIRS {| perPairTokens := ∅; totalRaw := 0 |}))
          = recorded <$> PAIRS) as ->.
  { unfold csv_cols. apply Forall_fmap_ext, Forall_forall.
    intros pair Hpair.
    destruct (main_loop_entries PAIRS {| perPairTokens := ∅; totalRaw := 0 |}
                PAIRS_names_NoDup) as [Hin _].
    by rewrite (Hin pair Hpair). }
  f_equal. f_equal.
  unfold ensureCsvHeader.
  destruct file as [content|]; [|reflexivity].
  destruct (String.length content =? 0)%nat; reflexivity.
Qed.

End SnapshotFacts.

Lemma main_loop_perPairTokens_witness :
  let pairs :=
    [sample_pair;
     {| name := "ETH/SCARCE"; pool := "short"; position := "position" |}] in
  let st :=
    main_loop padded_digest ["Pool"; "Position"] sample_coder sample_chain
      Z 0 (λ raw, raw) pairs {| perPairTokens := ∅; totalRaw := 0 |} in
  dom (perPairTokens Z st) = list_to_set (name <$> pairs)
  ∧ ∀ pair, pair ∈ pairs →
      perPairTokens Z st !! name pair
      = Some
          match
            processPair padded_digest ["Pool"; "Position"] sample_coder
              sample_chain pair
          with
          | Return totalPendingRaw => totalPendingRaw
          | Throw _ => 0
          end.
Proof.
  intros pairs.
  apply (main_loop_perPairTokens padded_digest ["Pool"; "Position"]
           sample_coder sample_chain Z 0 (λ raw, raw) pairs).
  apply (bool_decide_unpack _). vm_compute. exact I.
Defined.

Example main_loop_sample :
  let st :=
    main_loop padded_digest ["Pool"; "Position"] sample_coder sample_chain
      Z 0 (λ raw, raw)
      [sample_pair;
       {| name := "ETH/SCARCE"; pool := "short"; position := "position" |}]
      {| perPairTokens := ∅; totalRaw := 0 |} in
  totalRaw Z st = 1000500
  ∧ perPairTokens Z st !! "SOL/SCARCE" = Some 1000500
  ∧ perPairTokens Z st !! "ETH/SCARCE" = Some 0.
Proof. repeat split; reflexivity. Qed.

(** ** Facts about the CSV header *)




(** ** The spreadsheet row and the CSV row *)

Lemma string_app_assoc (a b c : string) :
  (a +:+ b) +:+ c = a +:+ (b +:+ c).
Proof.
  induction a as [|x a IH]; [reflexivity|].
  change (String x ((a +:+ b) +:+ c) = String x (a +:+ (b +:+ c))).
  by rewrite IH.
Qed.

(** The row sent to the spreadsheet has six cells, as many as the range
    [A:F] has columns, and the line appended to the CSV file is that same
    row printed cell by cell, joined by commas and ended by a line feed:
    both sinks receive the same values in the same order. *)
Theorem sheet_row_matches_csv_row (Number : Type) (Number_zero : Number)
    (Number_toString : Number → string) (timestampIso : string)
    (perPairTokens : gmap string Number) (totalTokens : Number)
    (file : option string) :
  ∃ row,
    sheet_values Number Number_zero timestampIso perPairTokens totalTokens
    = [row]
    ∧ length row = 6%nat
    ∧ appendCsvCombinedRow Number Number_zero Number_toString timestampIso
        perPairTokens totalTokens file
      = appendFileSync file
          (join_comma (Cell_toString Number Number_toString <$> row)
           +:+ newline).
Proof.
  eexists. split; [reflexivity|]. split; [reflexivity|].
  unfold appendCsvCombinedRow. f_equal.
  unfold csv_cols, PAIRS. cbn [fmap list_fmap app join_comma Cell_toString].
  rewrite !string_app_assoc. reflexivity.
Qed.
